(** * SPSCRingBuffer: a sequential model of [fadli::SPSCRingBuffer<T>]

    The class of [include/fadli/SPSCRingBuffer.hpp] is embedded as pure
    functions on a record of its seven data members.  Every [std::size_t] is a
    [Z] in [0, 2^64) whose wrap-around is written out with [wrap]; the slot
    array [buffer_] is a list whose length is the length handed to [new T[..]];
    an access [buffer_[i]] outside the allocated array is undefined behaviour
    in C++ and is modelled by the outcome [OutOfBounds i].

    The model is sequential: the producer's and the consumer's calls are
    executed one after the other on one thread, so an atomic load or store is
    a plain read or write of the field whatever its memory order. *)

From stdpp Require Import base list.
From Stdlib Require Import ZArith Lia Bool.

Local Open Scope Z_scope.

(** ** Machine arithmetic on [std::size_t] (64 bits) *)

Definition size_bits : Z := 64.

Definition wrap (x : Z) : Z := x mod 2 ^ size_bits.

(** [static constexpr std::size_t next_power_of_2(std::size_t n)] *)
Definition next_power_of_2 (n : Z) : Z :=
  if n =? 0 then 1
  else
    let n := wrap (n - 1) in
    let n := Z.lor n (Z.shiftr n 1) in
    let n := Z.lor n (Z.shiftr n 2) in
    let n := Z.lor n (Z.shiftr n 4) in
    let n := Z.lor n (Z.shiftr n 8) in
    let n := Z.lor n (Z.shiftr n 16) in
    let n := Z.lor n (Z.shiftr n 32) in
    wrap (n + 1).

(** The six [n |= n >> k] lines of [next_power_of_2] on their own. *)
Definition smear (m : Z) : Z :=
  let n := m in
  let n := Z.lor n (Z.shiftr n 1) in
  let n := Z.lor n (Z.shiftr n 2) in
  let n := Z.lor n (Z.shiftr n 4) in
  let n := Z.lor n (Z.shiftr n 8) in
  let n := Z.lor n (Z.shiftr n 16) in
  Z.lor n (Z.shiftr n 32).

(** The rounding the specification speaks of: the least power of two that is
    not below [n] (and [1] for [n <= 1]). *)
Definition next_power_of_two_spec (n : Z) : Z := 2 ^ Z.log2_up n.

(** Outcome of an operation that touches the slot array. *)
Inductive outcome (A : Type) : Type :=
  | Done (a : A)
  | OutOfBounds (i : Z).
Arguments Done {A} a.
Arguments OutOfBounds {A} i.

Section RingBuffer.

(** The element type, the value a default-constructed [T] holds (the slots
    of [new T[n]]), and what [T]'s move constructor leaves in its source. *)
Context {T : Type}.
Variable default_T : T.
Variable moved_from : T -> T.

(** The data members, in declaration order. *)
Record state : Type := mkState {
  capacity_ : Z;
  index_mask_ : Z;
  buffer_ : list T;
  head_ : Z;
  tail_cache_ : Z;
  tail_ : Z;
  head_cache_ : Z
}.

Definition set_buffer_ (b : list T) (s : state) : state :=
  mkState (capacity_ s) (index_mask_ s) b (head_ s) (tail_cache_ s)
          (tail_ s) (head_cache_ s).
Definition set_head_ (h : Z) (s : state) : state :=
  mkState (capacity_ s) (index_mask_ s) (buffer_ s) h (tail_cache_ s)
          (tail_ s) (head_cache_ s).
Definition set_tail_cache_ (t : Z) (s : state) : state :=
  mkState (capacity_ s) (index_mask_ s) (buffer_ s) (head_ s) t
          (tail_ s) (head_cache_ s).
Definition set_tail_ (t : Z) (s : state) : state :=
  mkState (capacity_ s) (index_mask_ s) (buffer_ s) (head_ s)
          (tail_cache_ s) t (head_cache_ s).
Definition set_head_cache_ (h : Z) (s : state) : state :=
  mkState (capacity_ s) (index_mask_ s) (buffer_ s) (head_ s)
          (tail_cache_ s) (tail_ s) h.

(** Length of the array obtained from [new T[..]]. *)
Definition allocated_length (s : state) : Z := Z.of_nat (length (buffer_ s)).

(** [b[i]] as an rvalue, for an array [b]: [None] outside the array. *)
Definition read (b : list T) (i : Z) : option T :=
  if (0 <=? i) && (i <? Z.of_nat (length b)) then b !! Z.to_nat i else None.

(** [buffer_[i]] as an rvalue. *)
Definition slot (s : state) (i : Z) : option T := read (buffer_ s) i.

(** [explicit SPSCRingBuffer(size_type capacity)].  The member initialisers
    run in declaration order, so [buffer_] is allocated with the value
    [capacity_] has before the constructor body adjusts it. *)
Definition construct (capacity : Z) : state :=
  let capacity_0 := next_power_of_2 (if 0 <? capacity then capacity else 1) in
  let index_mask_0 := wrap (capacity_0 - 1) in
  let buffer_0 := replicate (Z.to_nat capacity_0) default_T in
  if capacity_0 <? 2
  then mkState 2 1 buffer_0 0 0 0 0
  else mkState capacity_0 index_mask_0 buffer_0 0 0 0 0.

(** The tail of [try_push] once the full test has passed:
    [buffer_[current_tail] = item; tail_.store(next_tail)]. *)
Definition push_commit (item : T) (current_tail next_tail : Z) (s : state)
  : outcome (bool * state) :=
  if (0 <=? current_tail) && (current_tail <? allocated_length s)
  then Done (true, set_tail_ next_tail
                     (set_buffer_ (<[Z.to_nat current_tail := item]> (buffer_ s)) s))
  else OutOfBounds current_tail.

(** [bool try_push(const T& item)] and [bool try_push(T&& item)]: the two
    overloads differ only in what they leave in the caller's [item]. *)
Definition try_push (item : T) (s : state) : outcome (bool * state) :=
  let current_tail := tail_ s in
  let next_tail := Z.land (wrap (current_tail + 1)) (index_mask_ s) in
  if next_tail =? head_cache_ s then
    let s := set_head_cache_ (head_ s) s in
    if next_tail =? head_cache_ s then Done (false, s)
    else push_commit item current_tail next_tail s
  else push_commit item current_tail next_tail s.

(** [T* front()]: the pointer [&buffer_[current_head]] is the slot index,
    [nullptr] is [None]. *)
Definition front (s : state) : option Z * state :=
  let current_head := head_ s in
  if current_head =? tail_cache_ s then
    let s := set_tail_cache_ (tail_ s) s in
    if current_head =? tail_cache_ s then (None, s)
    else (Some current_head, s)
  else (Some current_head, s).

(** [void pop()] *)
Definition pop (s : state) : state :=
  let current_head := head_ s in
  set_head_ (Z.land (wrap (current_head + 1)) (index_mask_ s)) s.

(** The tail of [try_pop] once the empty test has passed:
    [T item = std::move(buffer_[current_head]); head_.store(..)]. *)
Definition pop_commit (current_head : Z) (s : state)
  : outcome (option T * state) :=
  match slot s current_head with
  | Some item =>
      Done (Some item,
            set_head_ (Z.land (wrap (current_head + 1)) (index_mask_ s))
              (set_buffer_ (<[Z.to_nat current_head := moved_from item]> (buffer_ s)) s))
  | None => OutOfBounds current_head
  end.

(** [std::optional<T> try_pop()] *)
Definition try_pop (s : state) : outcome (option T * state) :=
  let current_head := head_ s in
  if current_head =? tail_cache_ s then
    let s := set_tail_cache_ (tail_ s) s in
    if current_head =? tail_cache_ s then Done (None, s)
    else pop_commit current_head s
  else pop_commit current_head s.

(** [bool empty() const] *)
Definition empty (s : state) : bool := head_ s =? tail_ s.

(** [bool full() const] *)
Definition full (s : state) : bool :=
  let next_tail := Z.land (wrap (tail_ s + 1)) (index_mask_ s) in
  next_tail =? head_ s.

(** [size_type size() const] *)
Definition size (s : state) : Z :=
  let head := head_ s in
  let tail := tail_ s in
  Z.land (wrap (tail - head)) (index_mask_ s).

(** [size_type capacity() const] *)
Definition capacity (s : state) : Z := wrap (capacity_ s - 1).

(** [size_type buffer_size() const] *)
Definition buffer_size (s : state) : Z := capacity_ s.

(** ** Sequential clients

    A client is a list of calls made one after the other; [run] executes
    it and records what each call returned.  A [Front] call dereferences the
    pointer it got, as the consumer loop of the README does, and a [Pop]
    records whether the buffer was non-empty ([!empty()]) when it was made. *)

Inductive op : Type :=
  | Push (v : T)
  | Front
  | Pop
  | TryPop.

Inductive obs : Type :=
  | ObsPush (v : T) (ok : bool)
  | ObsFront (r : option T)
  | ObsPop (nonempty : bool)
  | ObsTryPop (r : option T).

Definition step (o : op) (s : state) : outcome (obs * state) :=
  match o with
  | Push v =>
      match try_push v s with
      | Done (ok, s') => Done (ObsPush v ok, s')
      | OutOfBounds i => OutOfBounds i
      end
  | Front =>
      match front s with
      | (None, s') => Done (ObsFront None, s')
      | (Some p, s') =>
          match slot s' p with
          | Some x => Done (ObsFront (Some x), s')
          | None => OutOfBounds p
          end
      end
  | Pop => Done (ObsPop (negb (empty s)), pop s)
  | TryPop =>
      match try_pop s with
      | Done (r, s') => Done (ObsTryPop r, s')
      | OutOfBounds i => OutOfBounds i
      end
  end.

Fixpoint run (ops : list op) (s : state) : outcome (list obs * state) :=
  match ops with
  | [] => Done ([], s)
  | o :: ops =>
      match step o s with
      | Done (e, s') =>
          match run ops s' with
          | Done (tr, s'') => Done (e :: tr, s'')
          | OutOfBounds i => OutOfBounds i
          end
      | OutOfBounds i => OutOfBounds i
      end
  end.

(** The precondition of [pop()]: the consumer's latest call was a [front()]
    that returned an element.  [peeked] tells whether that holds before the
    call observed as [e], [peeked_after] whether it holds after it. *)
Definition allowed (peeked : bool) (e : obs) : bool :=
  match e with
  | ObsPop _ => peeked
  | _ => true
  end.

Definition peeked_after (peeked : bool) (e : obs) : bool :=
  match e with
  | ObsPush _ _ => peeked
  | ObsFront (Some _) => true
  | ObsFront None => false
  | ObsPop _ => false
  | ObsTryPop _ => false
  end.

Fixpoint disciplined (peeked : bool) (tr : list obs) : bool :=
  match tr with
  | [] => true
  | e :: tr => allowed peeked e && disciplined (peeked_after peeked e) tr
  end.

(** The weaker condition that every [pop()] found the buffer non-empty. *)
Fixpoint pops_nonempty (tr : list obs) : bool :=
  match tr with
  | [] => true
  | ObsPop b :: tr => b && pops_nonempty tr
  | _ :: tr => pops_nonempty tr
  end.

(** The values of the successful pushes, in call order. *)
Fixpoint pushed (tr : list obs) : list T :=
  match tr with
  | [] => []
  | ObsPush v true :: tr => v :: pushed tr
  | _ :: tr => pushed tr
  end.

(** What the consumer sees: each value obtained from [front()] or
    [try_pop()], paired with the number of elements removed before it
    ([n] on entry). *)
Fixpoint views (n : nat) (tr : list obs) : list (nat * T) :=
  match tr with
  | [] => []
  | ObsPush _ _ :: tr => views n tr
  | ObsFront (Some x) :: tr => (n, x) :: views n tr
  | ObsFront None :: tr => views n tr
  | ObsPop _ :: tr => views (S n) tr
  | ObsTryPop (Some x) :: tr => (n, x) :: views (S n) tr
  | ObsTryPop None :: tr => views n tr
  end.

(** ** The queue of the specification

    A list, oldest element first, that holds at most [limit] elements. *)

Definition queue_step (limit : Z) (o : op) (q : list T) : obs * list T :=
  match o with
  | Push v =>
      if Z.of_nat (length q) <? limit
      then (ObsPush v true, q ++ [v])
      else (ObsPush v false, q)
  | Front => (ObsFront (head q), q)
  | Pop => (ObsPop (bool_decide (q <> [])), tail q)
  | TryPop => (ObsTryPop (head q), tail q)
  end.

Fixpoint queue_run (limit : Z) (ops : list op) (q : list T)
  : list obs * list T :=
  match ops with
  | [] => ([], q)
  | o :: ops =>
      let (e, q1) := queue_step limit o q in
      let (tr, q2) := queue_run limit ops q1 in
      (e :: tr, q2)
  end.

(** Removing elements one by one, each either by [try_pop()] ([true]) or by
    [front()] followed by [pop()] ([false]), and what the consumer observes
    when the elements removed are [vs]. *)
Definition drain (how : list bool) : list op :=
  flat_map (fun b : bool => if b then [TryPop] else [Front; Pop]) how.

Fixpoint drain_obs (how : list bool) (vs : list T) : list obs :=
  match how, vs with
  | b :: how, v :: vs =>
      (if b then [ObsTryPop (Some v)] else [ObsFront (Some v); ObsPop true])
      ++ drain_obs how vs
  | _, _ => []
  end.

(** ** Further clients and counts *)

(** The number of removals a trace records: every [pop()] and every
    [try_pop()] that returned an element. *)
Fixpoint removed (tr : list obs) : nat :=
  match tr with
  | [] => 0%nat
  | ObsPop _ :: tr => S (removed tr)
  | ObsTryPop (Some _) :: tr => S (removed tr)
  | _ :: tr => removed tr
  end.

(** Pushing a value and taking it out again, once per value, and what the
    two threads observe when every call succeeds. *)
Definition ping_pong (vs : list T) : list op :=
  flat_map (fun v => [Push v; TryPop]) vs.

Definition ping_pong_obs (vs : list T) : list obs :=
  flat_map (fun v => [ObsPush v true; ObsTryPop (Some v)]) vs.

(** ** Invariants *)

(** [capacity_] is a power of two between [2] and [2^63] and [index_mask_]
    is one less. *)
Definition shaped (s : state) : Prop :=
  exists k, 1 <= k <= 63 /\ capacity_ s = 2 ^ k /\ index_mask_ s = 2 ^ k - 1.

(** The array really has [capacity_] slots. *)
Definition sound (s : state) : Prop := allocated_length s = capacity_ s.

(** What keeps every slot access inside the array, whatever the client
    does. *)
Definition Wf (s : state) : Prop :=
  shaped s /\ sound s /\
  0 <= head_ s < capacity_ s /\ 0 <= tail_ s < capacity_ s.

(** The two published indices are below [capacity_]. *)
Definition ranged (s : state) : Prop :=
  shaped s /\
  0 <= head_ s < capacity_ s /\ 0 <= tail_ s < capacity_ s.

(** The representation invariant: the buffer holds the queue [q], oldest
    element first.  [H] counts the elements removed so far, so [H + length q]
    counts the elements pushed; [Hc] and [Tc] are the values of those two
    counters when the producer's and the consumer's caches were last
    refreshed.  The four index fields are the counters modulo [2^k]. *)
Record rep_at (k H Hc Tc : Z) (s : state) (q : list T) : Prop := RepAt {
  rep_k : 1 <= k <= 63;
  rep_capacity : capacity_ s = 2 ^ k;
  rep_mask : index_mask_ s = 2 ^ k - 1;
  rep_Hc : 0 <= Hc <= H;
  rep_Tc : H <= Tc <= H + Z.of_nat (length q);
  rep_room : H + Z.of_nat (length q) - Hc < 2 ^ k;
  rep_head : head_ s = H mod 2 ^ k;
  rep_tail : tail_ s = (H + Z.of_nat (length q)) mod 2 ^ k;
  rep_head_cache : head_cache_ s = Hc mod 2 ^ k;
  rep_tail_cache : tail_cache_ s = Tc mod 2 ^ k;
  rep_slots : forall (i : nat) (x : T),
      q !! i = Some x -> slot s ((H + Z.of_nat i) mod 2 ^ k) = Some x
}.

(** [Rep peeked s q]: [s] represents [q]; when [peeked] holds the consumer's
    cached tail is moreover strictly ahead of [head_], which is what a
    [front()] that returned an element leaves behind. *)
Definition Rep (peeked : bool) (s : state) (q : list T) : Prop :=
  exists k H Hc Tc,
    rep_at k H Hc Tc s q /\ (peeked = true -> H < Tc).

(** ** The rounding of [next_power_of_2] *)

Lemma wrap_small x : 0 <= x < 2 ^ 64 -> wrap x = x.
Proof. intros H. unfold wrap, size_bits. now apply Z.mod_small. Qed.

Lemma wrap_range x : 0 <= wrap x < 2 ^ 64.
Proof. unfold wrap, size_bits. apply Z.mod_pos_bound. lia. Qed.

(** One [n |= n >> k] doubles the window of bits of [m] that bit [i] of
    [n] collects. *)
Lemma smear_step m k x :
  0 <= k ->
  (forall i, 0 <= i ->
     Z.testbit x i = true <-> exists j, i <= j < i + k /\ Z.testbit m j = true) ->
  forall i, 0 <= i ->
    Z.testbit (Z.lor x (Z.shiftr x k)) i = true <->
    exists j, i <= j < i + (k + k) /\ Z.testbit m j = true.
Proof.
  intros Hk Hx i Hi.
  rewrite Z.lor_spec, Z.shiftr_spec by lia.
  rewrite orb_true_iff, (Hx i), (Hx (i + k)) by lia.
  split.
  - intros [(j & Hj & Hb) | (j & Hj & Hb)]; exists j; split; auto; lia.
  - intros (j & Hj & Hb).
    destruct (Z_lt_ge_dec j (i + k)); [left | right]; exists j; split; auto; lia.
Qed.

Lemma smear_window m i :
  0 <= i ->
  Z.testbit (smear m) i = true <->
  exists j, i <= j < i + 64 /\ Z.testbit m j = true.
Proof.
  revert i. unfold smear. cbv zeta.
  change 64 with (32 + 32). apply smear_step; [lia |].
  change 32 with (16 + 16). apply smear_step; [lia |].
  change 16 with (8 + 8). apply smear_step; [lia |].
  change 8 with (4 + 4). apply smear_step; [lia |].
  change 4 with (2 + 2). apply smear_step; [lia |].
  change 2 with (1 + 1). apply smear_step; [lia |].
  intros i Hi. split.
  - intros Hb. exists i. split; [lia | exact Hb].
  - intros (j & Hj & Hb). replace i with j by lia. exact Hb.
Qed.

Lemma smear_ones m :
  0 < m < 2 ^ 64 -> smear m = Z.ones (Z.log2 m + 1).
Proof.
  intros Hm.
  assert (Hl : 0 <= Z.log2 m < 64).
  { split; [apply Z.log2_nonneg |]. apply Z.log2_lt_pow2; lia. }
  apply Z.bits_inj'. intros i Hi.
  apply eq_true_iff_eq. rewrite smear_window by lia.
  split.
  - intros (j & Hj & Hb).
    destruct (Z_lt_ge_dec (Z.log2 m) j) as [Hlt | Hge].
    + rewrite Z.bits_above_log2 in Hb by lia. discriminate.
    + apply Z.ones_spec_low. lia.
  - intros Hb.
    destruct (Z_lt_ge_dec i (Z.log2 m + 1)) as [Hlt | Hge].
    + exists (Z.log2 m). split; [lia |]. apply Z.bit_log2. lia.
    + rewrite Z.ones_spec_high in Hb by lia. discriminate.
Qed.

Lemma next_power_of_2_smear n :
  2 <= n < 2 ^ 64 ->
  next_power_of_2 n = wrap (2 ^ (Z.log2 (n - 1) + 1)).
Proof.
  intros Hn. unfold next_power_of_2.
  destruct (Z.eqb_spec n 0) as [-> | _]; [lia |].
  cbv zeta. rewrite (wrap_small (n - 1)) by lia.
  fold (smear (n - 1)). rewrite smear_ones by lia.
  rewrite Z.ones_equiv. f_equal. lia.
Qed.

(** On every input that has a power of two above it in 64 bits the code
    computes the rounding of the specification. *)
Lemma next_power_of_2_refines n :
  0 <= n <= 2 ^ 63 -> next_power_of_2 n = next_power_of_two_spec n.
Proof.
  intros Hn. unfold next_power_of_two_spec.
  destruct (Z.eq_dec n 0) as [-> | H0]; [reflexivity |].
  destruct (Z.eq_dec n 1) as [-> | H1]; [reflexivity |].
  rewrite next_power_of_2_smear by lia.
  rewrite Z.log2_up_eqn by lia.
  replace (Z.pred n) with (n - 1) by lia.
  replace (Z.succ (Z.log2 (n - 1))) with (Z.log2 (n - 1) + 1) by lia.
  assert (Hl : 0 <= Z.log2 (n - 1) < 63).
  { split; [apply Z.log2_nonneg |]. apply Z.log2_lt_pow2; lia. }
  apply wrap_small. split; [apply Z.pow_nonneg; lia |].
  apply Z.pow_lt_mono_r; lia.
Qed.

(** Above [2^63] the final [n + 1] wraps to zero. *)
Lemma next_power_of_2_overflow n :
  2 ^ 63 < n < 2 ^ 64 -> next_power_of_2 n = 0.
Proof.
  intros Hn. rewrite next_power_of_2_smear by lia.
  assert (Hl : Z.log2 (n - 1) = 63).
  { apply Z.log2_unique; lia. }
  rewrite Hl. reflexivity.
Qed.

(** ** Index arithmetic *)

Lemma pow2_bounds k : 1 <= k <= 63 -> 2 <= 2 ^ k <= 2 ^ 63.
Proof.
  intros Hk. split.
  - change 2 with (2 ^ 1) at 1. apply Z.pow_le_mono_r; lia.
  - apply Z.pow_le_mono_r; lia.
Qed.

Lemma mask_land x k : 0 <= k -> Z.land x (2 ^ k - 1) = x mod 2 ^ k.
Proof.
  intros Hk. rewrite <- Z.land_ones by lia.
  now rewrite Z.ones_equiv, Z.sub_1_r.
Qed.

(** [(i + 1) & index_mask_] steps a counter modulo [2^k]. *)
Lemma next_index k a :
  1 <= k <= 63 ->
  Z.land (wrap (a mod 2 ^ k + 1)) (2 ^ k - 1) = (a + 1) mod 2 ^ k.
Proof.
  intros Hk. pose proof (pow2_bounds k Hk) as Hp.
  assert (Ha : 0 <= a mod 2 ^ k < 2 ^ k) by (apply Z.mod_pos_bound; lia).
  rewrite wrap_small by lia.
  rewrite mask_land by lia.
  now rewrite Zplus_mod_idemp_l.
Qed.

(** Two counters less than a full turn apart have different indices. *)
Lemma mod_eq_close N a b :
  0 < N -> 0 <= a - b < N -> a mod N = b mod N -> a = b.
Proof.
  intros HN Hab Heq.
  assert (H0 : (a - b) mod N = 0).
  { rewrite Zminus_mod, Heq, Z.sub_diag. apply Z.mod_0_l. lia. }
  rewrite Z.mod_small in H0 by lia. lia.
Qed.

Lemma mod_neq_close N a b :
  0 < N -> 0 < a - b < N -> a mod N <> b mod N.
Proof.
  intros HN Hab Heq. apply mod_eq_close in Heq; lia.
Qed.

(** ** Reading and writing slots *)

Lemma read_insert_eq (b : list T) i v :
  0 <= i < Z.of_nat (length b) ->
  read (<[Z.to_nat i := v]> b) i = Some v.
Proof.
  intros Hi. unfold read. rewrite length_insert.
  destruct (Z.leb_spec 0 i); [| lia].
  destruct (Z.ltb_spec i (Z.of_nat (length b))); [| lia].
  simpl. apply list_lookup_insert_eq. lia.
Qed.

Lemma read_insert_ne (b : list T) i j v :
  0 <= i -> 0 <= j -> i <> j ->
  read (<[Z.to_nat i := v]> b) j = read b j.
Proof.
  intros Hi Hj Hne. unfold read. rewrite length_insert.
  destruct ((0 <=? j) && (j <? Z.of_nat (length b))); [| reflexivity].
  apply list_lookup_insert_ne. lia.
Qed.

Lemma read_Some_bounds (b : list T) i x :
  read b i = Some x -> 0 <= i < Z.of_nat (length b).
Proof.
  unfold read.
  destruct (Z.leb_spec 0 i); destruct (Z.ltb_spec i (Z.of_nat (length b)));
    simpl; intros Hr; try discriminate. lia.
Qed.

Lemma read_in_bounds (b : list T) i :
  0 <= i < Z.of_nat (length b) -> exists x, read b i = Some x.
Proof.
  intros Hi. unfold read.
  destruct (Z.leb_spec 0 i); [| lia].
  destruct (Z.ltb_spec i (Z.of_nat (length b))); [| lia].
  simpl. apply lookup_lt_is_Some_2. lia.
Qed.

(** ** The producer *)

Lemma rep_at_length k H Hc Tc s q :
  rep_at k H Hc Tc s q -> Z.of_nat (length q) + 1 <= 2 ^ k.
Proof. intros [? ? ? ? ? ? ? ? ? ? ?]. lia. Qed.

(** Under the invariant [try_push] reports full exactly when the queue
    holds [2^k - 1] elements, and then changes nothing; otherwise it reaches
    the slot write with a head cache that leaves room for one more. *)
Lemma try_push_cases k H Hc Tc s q v :
  rep_at k H Hc Tc s q ->
  (Z.of_nat (length q) + 1 = 2 ^ k /\ try_push v s = Done (false, s)) \/
  (Z.of_nat (length q) + 1 < 2 ^ k /\
   exists Hc' s1,
     rep_at k H Hc' Tc s1 q /\
     H + Z.of_nat (length q) + 1 - Hc' < 2 ^ k /\
     buffer_ s1 = buffer_ s /\
     try_push v s =
       push_commit v ((H + Z.of_nat (length q)) mod 2 ^ k)
                     ((H + Z.of_nat (length q) + 1) mod 2 ^ k) s1).
Proof.
  intros R. pose proof R as [Hk Hcap Hmask HHc HTc Hroom Hh Ht Hhc Htc Hsl].
  pose proof (pow2_bounds k Hk) as Hp.
  set (n := Z.of_nat (length q)) in *.
  assert (Hnt : Z.land (wrap (tail_ s + 1)) (index_mask_ s) = (H + n + 1) mod 2 ^ k).
  { rewrite Ht, Hmask. now apply next_index. }
  unfold try_push. rewrite Hnt.
  destruct (Z.eqb_spec ((H + n + 1) mod 2 ^ k) (head_cache_ s)) as [E1 | N1].
  - assert (Hs1 : head_cache_ (set_head_cache_ (head_ s) s) = H mod 2 ^ k)
      by (destruct s; exact Hh).
    rewrite Hs1.
    destruct (Z.eqb_spec ((H + n + 1) mod 2 ^ k) (H mod 2 ^ k)) as [E2 | N2].
    + left.
      assert (Hfull : n + 1 = 2 ^ k).
      { destruct (Z.eq_dec (n + 1) (2 ^ k)) as [|Hne]; [assumption |].
        exfalso. apply (mod_neq_close (2 ^ k) (H + n + 1) H); lia. }
      split; [exact Hfull |].
      do 2 f_equal. destruct s; unfold set_head_cache_; simpl in *.
      f_equal. congruence.
    + right.
      assert (Hlt : n + 1 < 2 ^ k).
      { destruct (Z.eq_dec (n + 1) (2 ^ k)) as [Heq |]; [| lia].
        exfalso. apply N2. replace (H + n + 1) with (H + 1 * 2 ^ k) by lia.
        apply Z_mod_plus_full. }
      split; [exact Hlt |].
      exists H, (set_head_cache_ (head_ s) s).
      split; [| split; [lia | split; [destruct s; reflexivity |]]].
      * destruct s; constructor; simpl in *; try assumption; lia.
      * rewrite Ht. reflexivity.
  - right.
    assert (Hlt : H + n + 1 - Hc < 2 ^ k).
    { destruct (Z.eq_dec (H + n + 1 - Hc) (2 ^ k)) as [Heq |]; [| lia].
      exfalso. apply N1. rewrite Hhc.
      replace (H + n + 1) with (Hc + 1 * 2 ^ k) by lia.
      apply Z_mod_plus_full. }
    split; [lia |].
    exists Hc, s. split; [exact R |]. split; [exact Hlt |].
    split; [reflexivity |]. rewrite Ht. reflexivity.
Qed.

(** The slot write and the publication of the new tail. *)
Lemma push_commit_rep k H Hc Tc s q v :
  rep_at k H Hc Tc s q ->
  H + Z.of_nat (length q) + 1 - Hc < 2 ^ k ->
  (H + Z.of_nat (length q)) mod 2 ^ k < allocated_length s ->
  exists s',
    push_commit v ((H + Z.of_nat (length q)) mod 2 ^ k)
                  ((H + Z.of_nat (length q) + 1) mod 2 ^ k) s = Done (true, s') /\
    rep_at k H Hc Tc s' (q ++ [v]) /\
    head_ s' = head_ s /\
    allocated_length s' = allocated_length s.
Proof.
  intros [Hk Hcap Hmask HHc HTc Hroom Hh Ht Hhc Htc Hsl] Hfree Hin.
  pose proof (pow2_bounds k Hk) as Hp.
  set (n := Z.of_nat (length q)) in *.
  assert (Hm : 0 <= (H + n) mod 2 ^ k < 2 ^ k) by (apply Z.mod_pos_bound; lia).
  unfold push_commit.
  destruct (Z.leb_spec 0 ((H + n) mod 2 ^ k)); [| lia].
  destruct (Z.ltb_spec ((H + n) mod 2 ^ k) (allocated_length s)); [| lia].
  simpl. eexists. split; [reflexivity |].
  assert (Hlen : Z.of_nat (length (q ++ [v])) = n + 1).
  { rewrite length_app. simpl. lia. }
  destruct s as [cap mask buf hd tc tl hc].
  unfold allocated_length, set_tail_, set_buffer_, slot in *; simpl in *.
  split; [| split; [reflexivity | now rewrite length_insert]].
  constructor; simpl; try assumption; try lia.
  - now rewrite Hlen, Z.add_assoc.
  - intros i x Hix. unfold slot. simpl.
    destruct (decide (i < length q)%nat) as [Hi | Hi].
    + rewrite lookup_app_l in Hix by assumption.
      rewrite read_insert_ne.
      * now apply Hsl.
      * lia.
      * apply Z.mod_pos_bound; lia.
      * apply mod_neq_close; unfold n; lia.
    + assert (Hil : i = length q).
      { apply lookup_lt_Some in Hix. rewrite length_app in Hix.
        simpl in Hix. lia. }
      subst i. rewrite lookup_app_r in Hix by lia.
      rewrite Nat.sub_diag in Hix. simpl in Hix. injection Hix as ->.
      fold n. apply read_insert_eq. lia.
Qed.

(** ** The consumer *)

(** [try_pop] runs the emptiness test of [front] and then moves the element
    out and advances [head_]. *)
Lemma try_pop_via_front s :
  try_pop s =
  match front s with
  | (None, s1) => Done (None, s1)
  | (Some p, s1) => pop_commit p s1
  end.
Proof.
  unfold try_pop, front.
  destruct (head_ s =? tail_cache_ s); [| reflexivity].
  destruct (head_ s =? tail_cache_ (set_tail_cache_ (tail_ s) s)); reflexivity.
Qed.

Lemma front_rep_at_nil k H Hc Tc s :
  rep_at k H Hc Tc s [] -> front s = (None, s).
Proof.
  intros [Hk Hcap Hmask HHc HTc Hroom Hh Ht Hhc Htc Hsl].
  simpl in *. assert (Tc = H) by lia. subst Tc.
  rewrite Z.add_0_r in Ht.
  unfold front. rewrite Hh, Htc, Z.eqb_refl.
  destruct s as [cap mask buf hd tc tl hc]; unfold set_tail_cache_; simpl in *.
  rewrite Ht, Z.eqb_refl. subst. reflexivity.
Qed.

Lemma front_rep_at_cons k H Hc Tc s x q :
  rep_at k H Hc Tc s (x :: q) ->
  exists Tc' s',
    front s = (Some (head_ s), s') /\
    rep_at k H Hc Tc' s' (x :: q) /\ H < Tc' /\
    slot s' (head_ s) = Some x /\
    head_ s' = head_ s /\ tail_ s' = tail_ s /\ buffer_ s' = buffer_ s.
Proof.
  intros R. pose proof R as [Hk Hcap Hmask HHc HTc Hroom Hh Ht Hhc Htc Hsl].
  pose proof (pow2_bounds k Hk) as Hp.
  assert (Hn : Z.of_nat (length (x :: q)) = Z.of_nat (length q) + 1)
    by (simpl; lia).
  rewrite Hn in *.
  assert (Hx : slot s (head_ s) = Some x).
  { rewrite Hh. replace H with (H + Z.of_nat 0) at 1 by (simpl; lia).
    now apply Hsl. }
  unfold front.
  destruct (Z.eqb_spec (head_ s) (tail_cache_ s)) as [E | N].
  - assert (Tc = H).
    { apply (mod_eq_close (2 ^ k)); [lia | lia | congruence]. }
    subst Tc.
    assert (Hne : head_ s <> tail_ s).
    { rewrite Hh, Ht. apply not_eq_sym, mod_neq_close; lia. }
    destruct s as [cap mask buf hd tc tl hc]; unfold set_tail_cache_; simpl in *.
    destruct (Z.eqb_spec hd tl) as [| _]; [contradiction |].
    exists (H + (Z.of_nat (length q) + 1)). eexists.
    split; [reflexivity |].
    split; [| repeat split; try reflexivity; try lia; exact Hx].
    constructor; simpl; try assumption; try lia.
  - exists Tc, s. split; [reflexivity |].
    split; [exact R |].
    split; [| repeat split; exact Hx].
    destruct (Z.eq_dec Tc H) as [-> |]; [| lia].
    congruence.
Qed.

(** Advancing [head_] past an element the consumer knows to be there. *)
Lemma pop_rep_at k H Hc Tc s x q :
  rep_at k H Hc Tc s (x :: q) -> H < Tc ->
  rep_at k (H + 1) Hc Tc (pop s) q.
Proof.
  intros [Hk Hcap Hmask HHc HTc Hroom Hh Ht Hhc Htc Hsl] Hlt.
  assert (Hn : Z.of_nat (length (x :: q)) = Z.of_nat (length q) + 1)
    by (simpl; lia).
  rewrite Hn in *.
  assert (Hnext : Z.land (wrap (head_ s + 1)) (index_mask_ s) = (H + 1) mod 2 ^ k).
  { rewrite Hh, Hmask. now apply next_index. }
  unfold pop. rewrite Hnext.
  destruct s as [cap mask buf hd tc tl hc]; unfold set_head_; simpl in *.
  constructor; simpl; try assumption; try lia.
  - rewrite Ht. f_equal. lia.
  - intros i y Hiy. specialize (Hsl (S i) y Hiy).
    replace (H + 1 + Z.of_nat i) with (H + Z.of_nat (S i)) by lia.
    exact Hsl.
Qed.

(** Moving the front element out and advancing [head_]. *)
Lemma pop_commit_rep_at k H Hc Tc s x q :
  rep_at k H Hc Tc s (x :: q) -> H < Tc ->
  exists s',
    pop_commit (head_ s) s = Done (Some x, s') /\
    rep_at k (H + 1) Hc Tc s' q /\
    allocated_length s' = allocated_length s.
Proof.
  intros [Hk Hcap Hmask HHc HTc Hroom Hh Ht Hhc Htc Hsl] Hlt.
  pose proof (pow2_bounds k Hk) as Hp.
  assert (Hn : Z.of_nat (length (x :: q)) = Z.of_nat (length q) + 1)
    by (simpl; lia).
  rewrite Hn in *.
  assert (Hx : slot s (head_ s) = Some x).
  { rewrite Hh. replace H with (H + Z.of_nat 0) at 1 by (simpl; lia).
    now apply Hsl. }
  assert (Hnext : Z.land (wrap (head_ s + 1)) (index_mask_ s) = (H + 1) mod 2 ^ k).
  { rewrite Hh, Hmask. now apply next_index. }
  unfold pop_commit. rewrite Hx, Hnext. eexists. split; [reflexivity |].
  destruct s as [cap mask buf hd tc tl hc].
  unfold allocated_length, set_head_, set_buffer_, slot in *; simpl in *.
  split; [| now rewrite length_insert].
  constructor; simpl; try assumption; try lia.
  - rewrite Ht. f_equal. lia.
  - intros i y Hiy. unfold slot; simpl. subst hd.
    assert (Hi : (i < length q)%nat) by (now apply lookup_lt_Some in Hiy).
    rewrite read_insert_ne.
    + specialize (Hsl (S i) y Hiy).
      replace (H + 1 + Z.of_nat i) with (H + Z.of_nat (S i)) by lia.
      exact Hsl.
    + apply Z.mod_pos_bound; lia.
    + apply Z.mod_pos_bound; lia.
    + apply not_eq_sym, mod_neq_close; lia.
Qed.

(** ** Construction *)

(** The three shapes a constructed buffer can have. *)
Lemma construct_cases c :
  0 <= c < 2 ^ 64 ->
  (c <= 1 /\ construct c = mkState 2 1 [default_T] 0 0 0 0) \/
  (2 <= c <= 2 ^ 63 /\
   1 <= Z.log2_up c <= 63 /\
   construct c =
     mkState (2 ^ Z.log2_up c) (2 ^ Z.log2_up c - 1)
             (replicate (Z.to_nat (2 ^ Z.log2_up c)) default_T) 0 0 0 0) \/
  (2 ^ 63 < c /\ construct c = mkState 2 1 [] 0 0 0 0).
Proof.
  intros Hc.
  destruct (Z_le_gt_dec c 1) as [H1 | H1].
  - left. split; [exact H1 |].
    assert (Hc01 : c = 0 \/ c = 1) by lia.
    destruct Hc01 as [-> | ->]; reflexivity.
  - destruct (Z_le_gt_dec c (2 ^ 63)) as [H2 | H2].
    + right; left. split; [lia |].
      assert (Hk : 1 <= Z.log2_up c <= 63).
      { split.
        - pose proof (Z.log2_up_pos c). lia.
        - apply Z.log2_up_le_pow2; lia. }
      split; [exact Hk |].
      pose proof (pow2_bounds _ Hk) as Hp.
      unfold construct.
      destruct (Z.ltb_spec 0 c); [| lia].
      rewrite next_power_of_2_refines by lia.
      unfold next_power_of_two_spec.
      destruct (Z.ltb_spec (2 ^ Z.log2_up c) 2); [lia |].
      rewrite wrap_small by lia. reflexivity.
    + right; right. split; [lia |].
      unfold construct.
      destruct (Z.ltb_spec 0 c); [| lia].
      rewrite next_power_of_2_overflow by lia. reflexivity.
Qed.

Lemma construct_shaped c : 0 <= c < 2 ^ 64 -> shaped (construct c).
Proof.
  intros Hc.
  destruct (construct_cases c Hc) as [[_ ->] | [(_ & Hk & ->) | [_ ->]]].
  - exists 1. simpl. lia.
  - exists (Z.log2_up c). simpl. lia.
  - exists 1. simpl. lia.
Qed.

Lemma construct_indices c :
  head_ (construct c) = 0 /\ tail_ (construct c) = 0 /\
  head_cache_ (construct c) = 0 /\ tail_cache_ (construct c) = 0.
Proof.
  unfold construct.
  destruct (next_power_of_2 (if 0 <? c then c else 1) <? 2); simpl; auto.
Qed.

(** A fresh buffer represents the empty queue. *)
Lemma construct_rep c : 0 <= c < 2 ^ 64 -> Rep false (construct c) [].
Proof.
  intros Hc. destruct (construct_shaped c Hc) as (k & Hk & Hcap & Hmask).
  destruct (construct_indices c) as (Hh & Ht & Hhc & Htc).
  exists k, 0, 0, 0. split; [| discriminate].
  pose proof (pow2_bounds k Hk) as Hp.
  constructor; simpl; try assumption; try lia.
  intros i x Hix. rewrite lookup_nil in Hix. discriminate.
Qed.

(** Requested capacities from [2] to [2^63] give an array of [capacity_]
    slots. *)
Lemma construct_wf c : 2 <= c <= 2 ^ 63 -> Wf (construct c).
Proof.
  intros Hc. split; [apply construct_shaped; lia |].
  destruct (construct_cases c) as [[? _] | [(_ & Hk & ->) | [? _]]]; try lia.
  pose proof (pow2_bounds _ Hk) as Hp.
  unfold sound, allocated_length. simpl.
  rewrite length_replicate, Z2Nat.id by lia. lia.
Qed.

(** For requested capacities up to [2^63] the array has at least
    [capacity()] slots. *)
Lemma construct_allocated c :
  0 <= c <= 2 ^ 63 ->
  capacity_ (construct c) - 1 <= allocated_length (construct c).
Proof.
  intros Hc.
  destruct (construct_cases c) as [[_ ->] | [(_ & Hk & ->) | [? _]]]; try lia.
  - unfold allocated_length; simpl. lia.
  - pose proof (pow2_bounds _ Hk) as Hp.
    unfold allocated_length. simpl.
    rewrite length_replicate, Z2Nat.id by lia. lia.
Qed.

(** ** The operations on a represented queue *)

Lemma rep_at_capacity k H Hc Tc s q :
  rep_at k H Hc Tc s q -> capacity s = 2 ^ k - 1.
Proof.
  intros R. pose proof (pow2_bounds k (rep_k _ _ _ _ _ _ R)) as Hp.
  unfold capacity. rewrite (rep_capacity _ _ _ _ _ _ R).
  apply wrap_small. lia.
Qed.

Lemma push_commit_oob v i nt s :
  allocated_length s <= i -> push_commit v i nt s = OutOfBounds i.
Proof.
  intros Hi. unfold push_commit.
  destruct (Z.ltb_spec i (allocated_length s)); [lia |].
  now rewrite andb_false_r.
Qed.

Lemma try_push_rep pk s q v :
  Rep pk s q ->
  if Z.of_nat (length q) <? capacity s
  then
    (tail_ s < allocated_length s ->
     exists s', try_push v s = Done (true, s') /\ Rep pk s' (q ++ [v]) /\
                head_ s' = head_ s /\ capacity_ s' = capacity_ s /\
                allocated_length s' = allocated_length s) /\
    (allocated_length s <= tail_ s -> try_push v s = OutOfBounds (tail_ s))
  else try_push v s = Done (false, s).
Proof.
  intros (k & H & Hc & Tc & R & Hpk).
  rewrite (rep_at_capacity _ _ _ _ _ _ R).
  pose proof (rep_at_length _ _ _ _ _ _ R) as Hlen.
  pose proof (rep_tail _ _ _ _ _ _ R) as Ht.
  destruct (try_push_cases k H Hc Tc s q v R)
    as [[Hfull ->] | (Hroom & Hc' & s1 & R1 & Hfree & Hbuf & ->)].
  - destruct (Z.ltb_spec (Z.of_nat (length q)) (2 ^ k - 1)); [lia | reflexivity].
  - destruct (Z.ltb_spec (Z.of_nat (length q)) (2 ^ k - 1)); [| lia].
    assert (Hal : allocated_length s1 = allocated_length s)
      by (unfold allocated_length; now rewrite Hbuf).
    rewrite <- Ht. split.
    + intros Hin.
      destruct (push_commit_rep k H Hc' Tc s1 q v R1 Hfree)
        as (s' & Hrun & R' & Hh' & Hal').
      { rewrite <- Ht. lia. }
      rewrite <- Ht in Hrun.
      exists s'. split; [exact Hrun |].
      split; [exists k, H, Hc', Tc; split; [exact R' | exact Hpk] |].
      split; [rewrite Hh', (rep_head _ _ _ _ _ _ R1); symmetry;
              apply (rep_head _ _ _ _ _ _ R) |].
      split; [rewrite (rep_capacity _ _ _ _ _ _ R'); symmetry;
              apply (rep_capacity _ _ _ _ _ _ R) | lia].
    + intros Hout. apply push_commit_oob. lia.
Qed.

Lemma front_rep pk s q :
  Rep pk s q ->
  match q with
  | [] => front s = (None, s)
  | x :: _ =>
      exists s', front s = (Some (head_ s), s') /\ slot s' (head_ s) = Some x /\
                 Rep true s' q /\ capacity_ s' = capacity_ s /\
                 allocated_length s' = allocated_length s
  end.
Proof.
  intros (k & H & Hc & Tc & R & Hpk). destruct q as [| x q].
  - eapply front_rep_at_nil; eassumption.
  - destruct (front_rep_at_cons k H Hc Tc s x q R)
      as (Tc' & s' & Hf & R' & Hlt & Hx & _ & _ & Hbuf).
    exists s'. split; [exact Hf |]. split; [exact Hx |].
    split; [exists k, H, Hc, Tc'; split; [exact R' | intros _; exact Hlt] |].
    split; [rewrite (rep_capacity _ _ _ _ _ _ R'); symmetry;
            apply (rep_capacity _ _ _ _ _ _ R) |].
    unfold allocated_length. now rewrite Hbuf.
Qed.

Lemma pop_rep s q :
  Rep true s q ->
  exists x q', q = x :: q' /\ Rep false (pop s) q' /\ empty s = false /\
               capacity_ (pop s) = capacity_ s /\
               allocated_length (pop s) = allocated_length s.
Proof.
  intros (k & H & Hc & Tc & R & Hpk). specialize (Hpk eq_refl).
  pose proof R as [Hk Hcap Hmask HHc HTc Hroom Hh Ht Hhc Htc Hsl].
  pose proof (pow2_bounds k Hk) as Hp.
  destruct q as [| x q]; [simpl in *; lia |].
  exists x, q. split; [reflexivity |].
  split; [exists k, (H + 1), Hc, Tc; split; [| discriminate];
          now apply (pop_rep_at k H Hc Tc s x q) |].
  split; [| split; reflexivity].
  unfold empty. destruct (Z.eqb_spec (head_ s) (tail_ s)) as [E |]; [| reflexivity].
  exfalso. rewrite Hh, Ht in E. symmetry in E. revert E.
  apply mod_neq_close; simpl length in *; lia.
Qed.

Lemma try_pop_rep pk s q :
  Rep pk s q ->
  match q with
  | [] => try_pop s = Done (None, s)
  | x :: q' =>
      exists s', try_pop s = Done (Some x, s') /\ Rep false s' q' /\
                 capacity_ s' = capacity_ s /\
                 allocated_length s' = allocated_length s
  end.
Proof.
  intros (k & H & Hc & Tc & R & Hpk). rewrite try_pop_via_front.
  destruct q as [| x q].
  - now rewrite (front_rep_at_nil k H Hc Tc s R).
  - destruct (front_rep_at_cons k H Hc Tc s x q R)
      as (Tc' & s1 & -> & R1 & Hlt & _ & Hh1 & _ & Hbuf).
    destruct (pop_commit_rep_at k H Hc Tc' s1 x q R1 Hlt) as (s' & Hrun & R' & Hal).
    rewrite Hh1 in Hrun. exists s'. split; [exact Hrun |].
    split; [exists k, (H + 1), Hc, Tc'; split; [exact R' | discriminate] |].
    split; [rewrite (rep_capacity _ _ _ _ _ _ R'); symmetry;
            apply (rep_capacity _ _ _ _ _ _ R) |].
    rewrite Hal. unfold allocated_length. now rewrite Hbuf.
Qed.

(** ** Clients of a represented queue *)

Lemma Rep_weaken pk s q : Rep pk s q -> Rep false s q.
Proof.
  intros (k & H & Hc & Tc & R & _). exists k, H, Hc, Tc.
  split; [exact R | discriminate].
Qed.

Lemma capacity_frame s s' : capacity_ s' = capacity_ s -> capacity s' = capacity s.
Proof. intros E. unfold capacity. now rewrite E. Qed.

(** Every call that returns does what the queue of the specification does,
    provided [pop()] is only called under its precondition. *)
Lemma step_refines pk s q o e s' :
  Rep pk s q -> step o s = Done (e, s') -> allowed pk e = true ->
  e = fst (queue_step (capacity s) o q) /\
  Rep (peeked_after pk e) s' (snd (queue_step (capacity s) o q)) /\
  capacity_ s' = capacity_ s /\
  allocated_length s' = allocated_length s.
Proof.
  intros R Hstep Hok. destruct o as [v | | |]; simpl in Hstep |- *.
  - pose proof (try_push_rep pk s q v R) as Hp.
    destruct (Z.of_nat (length q) <? capacity s).
    + destruct Hp as [Hin Hout].
      destruct (Z_lt_ge_dec (tail_ s) (allocated_length s)) as [Hlt | Hge].
      * destruct (Hin Hlt) as (s1 & Hrun & R1 & _ & Hcap & Hal).
        rewrite Hrun in Hstep. injection Hstep as <- <-. simpl. auto.
      * rewrite Hout in Hstep by lia. discriminate.
    + rewrite Hp in Hstep. injection Hstep as <- <-. simpl. auto.
  - pose proof (front_rep pk s q R) as Hf. destruct q as [| x q].
    + rewrite Hf in Hstep. injection Hstep as <- <-. simpl.
      split; [reflexivity |]. split; [now apply Rep_weaken with pk | auto].
    + destruct Hf as (s1 & Hf & Hx & R1 & Hcap & Hal).
      rewrite Hf, Hx in Hstep. injection Hstep as <- <-. simpl. auto.
  - injection Hstep as <- <-. simpl in Hok. subst pk.
    destruct (pop_rep s q R) as (x & q' & -> & R' & He & Hcap & Hal).
    rewrite He. simpl. auto.
  - pose proof (try_pop_rep pk s q R) as Hp. destruct q as [| x q].
    + rewrite Hp in Hstep. injection Hstep as <- <-. simpl.
      split; [reflexivity |]. split; [now apply Rep_weaken with pk | auto].
    + destruct Hp as (s1 & Hrun & R1 & Hcap & Hal).
      rewrite Hrun in Hstep. injection Hstep as <- <-. simpl. auto.
Qed.

Lemma run_cons_Done o ops s tr s' :
  run (o :: ops) s = Done (tr, s') ->
  exists e s1 tr1,
    step o s = Done (e, s1) /\ run ops s1 = Done (tr1, s') /\ tr = e :: tr1.
Proof.
  simpl. destruct (step o s) as [[e s1] | i]; [| discriminate].
  destruct (run ops s1) as [[tr1 s2] | i] eqn:Hrun; [| discriminate].
  intros Heq. injection Heq as <- <-.
  exists e, s1, tr1. auto.
Qed.

Lemma run_refines ops :
  forall pk s q tr s',
    Rep pk s q -> run ops s = Done (tr, s') -> disciplined pk tr = true ->
    tr = fst (queue_run (capacity s) ops q) /\
    (exists pk', Rep pk' s' (snd (queue_run (capacity s) ops q))) /\
    capacity_ s' = capacity_ s /\
    allocated_length s' = allocated_length s.
Proof.
  induction ops as [| o ops IH]; intros pk s q tr s' R Hrun Hd.
  - simpl in Hrun. injection Hrun as <- <-. simpl. eauto.
  - apply run_cons_Done in Hrun as (e & s1 & tr1 & Hstep & Hrun & ->).
    simpl in Hd. apply andb_true_iff in Hd as [Hok Hd].
    destruct (step_refines pk s q o e s1 R Hstep Hok) as (He & R1 & Hcap & Hal).
    destruct (IH _ _ _ _ _ R1 Hrun Hd) as (Htr & Hrep & Hcap' & Hal').
    rewrite (capacity_frame _ _ Hcap) in Htr, Hrep.
    simpl. destruct (queue_step (capacity s) o q) as [e' q1]. simpl in *.
    destruct (queue_run (capacity s) ops q1) as [tr' q2]. simpl in *.
    subst. repeat split; [exact Hrep | congruence | congruence].
Qed.

(** ** First in, first out, for the queue of the specification *)

Lemma queue_run_fifo limit ops :
  forall q pk past,
    disciplined pk (fst (queue_run limit ops q)) = true ->
    (pk = true -> q <> []) ->
    Forall (fun nv : nat * T =>
              (past ++ q ++ pushed (fst (queue_run limit ops q))) !! fst nv
              = Some (snd nv))
           (views (length past) (fst (queue_run limit ops q))).
Proof.
  induction ops as [| o ops IH]; intros q pk past Hd Hpk; [constructor |].
  simpl in *.
  destruct o as [v | | |]; simpl in *.
  - destruct (Z.of_nat (length q) <? limit).
    + specialize (IH (q ++ [v]) pk past).
      destruct (queue_run limit ops (q ++ [v])) as [tr q2]. simpl in *.
      rewrite <- app_assoc in IH. simpl in IH. apply IH; [exact Hd |].
      intros _. now destruct q.
    + specialize (IH q pk past).
      destruct (queue_run limit ops q) as [tr q2]. simpl in *. auto.
  - destruct q as [| x q]; simpl in *.
    + specialize (IH [] false past).
      destruct (queue_run limit ops []) as [tr q2]. simpl in *.
      apply IH; [exact Hd | discriminate].
    + specialize (IH (x :: q) true past).
      destruct (queue_run limit ops (x :: q)) as [tr q2]. simpl in *.
      constructor; [| apply IH; [exact Hd | discriminate]].
      simpl. rewrite lookup_app_r, Nat.sub_diag by lia. reflexivity.
  - destruct q as [| x q].
    + simpl in Hd.
      destruct (queue_run limit ops []) as [tr q2]. simpl in *.
      apply andb_true_iff in Hd as [-> _]. now specialize (Hpk eq_refl).
    + specialize (IH q false (past ++ [x])).
      simpl in *. destruct (queue_run limit ops q) as [tr q2]. simpl in *.
      apply andb_true_iff in Hd as [_ Hd].
      rewrite length_app, Nat.add_1_r, <- app_assoc in IH. simpl in IH.
      apply IH; [exact Hd | discriminate].
  - destruct q as [| x q]; simpl in *.
    + specialize (IH [] false past).
      destruct (queue_run limit ops []) as [tr q2]. simpl in *.
      apply IH; [exact Hd | discriminate].
    + specialize (IH q false (past ++ [x])).
      destruct (queue_run limit ops q) as [tr q2]. simpl in *.
      rewrite length_app, Nat.add_1_r, <- app_assoc in IH. simpl in IH.
      constructor; [| apply IH; [exact Hd | discriminate]].
      simpl. rewrite lookup_app_r, Nat.sub_diag by lia. reflexivity.
Qed.

(** ** What every client preserves *)

(** No call changes [capacity_], [index_mask_] or the length of the array. *)
Lemma step_frame o s e s' :
  step o s = Done (e, s') ->
  capacity_ s' = capacity_ s /\ index_mask_ s' = index_mask_ s /\
  allocated_length s' = allocated_length s.
Proof.
  destruct s as [cap mask buf hd tc tl hc].
  destruct o as [v | | |]; unfold step.
  - unfold try_push, push_commit, allocated_length; simpl.
    repeat match goal with
           | |- context [if ?b then _ else _] => destruct b
           end; simpl; intros Heq; try discriminate;
      injection Heq as <- <-; simpl; rewrite ?length_insert; auto.
  - unfold front, slot, allocated_length; simpl.
    repeat match goal with
           | |- context [if ?b then _ else _] => destruct b
           end; simpl;
      try (destruct (read buf hd)); intros Heq; try discriminate;
      injection Heq as <- <-; simpl; auto.
  - intros Heq. injection Heq as <- <-. simpl. auto.
  - unfold try_pop, pop_commit, slot, allocated_length; simpl.
    repeat match goal with
           | |- context [if ?b then _ else _] => destruct b
           end; simpl;
      try (destruct (read buf hd)); intros Heq; try discriminate;
      injection Heq as <- <-; simpl; rewrite ?length_insert; auto.
Qed.

Lemma run_frame ops :
  forall s tr s',
    run ops s = Done (tr, s') ->
    capacity_ s' = capacity_ s /\ index_mask_ s' = index_mask_ s /\
    allocated_length s' = allocated_length s.
Proof.
  induction ops as [| o ops IH]; intros s tr s' Hrun.
  - simpl in Hrun. injection Hrun as <- <-. auto.
  - apply run_cons_Done in Hrun as (e & s1 & tr1 & Hstep & Hrun & ->).
    apply step_frame in Hstep as (E1 & E2 & E3).
    apply IH in Hrun as (F1 & F2 & F3).
    repeat split; congruence.
Qed.

Lemma masked_range k x :
  1 <= k <= 63 -> 0 <= Z.land x (2 ^ k - 1) < 2 ^ k.
Proof.
  intros Hk. pose proof (pow2_bounds k Hk).
  rewrite mask_land by lia. apply Z.mod_pos_bound. lia.
Qed.

(** With an array of [capacity_] slots no call leaves the array, whether
    [pop()] is called under its precondition or not. *)
Lemma step_wf o s :
  Wf s -> exists e s', step o s = Done (e, s') /\ Wf s'.
Proof.
  intros ((k & Hk & Hcap & Hmask) & Hsound & Hh & Ht).
  destruct s as [cap mask buf hd tc tl hc].
  unfold sound, allocated_length in *; simpl in *. subst cap mask.
  pose proof (masked_range k (wrap (tl + 1)) Hk) as Hnt.
  pose proof (masked_range k (wrap (hd + 1)) Hk) as Hnh.
  assert (Hshape : forall b h t c1 c2,
             Z.of_nat (length b) = 2 ^ k -> 0 <= h < 2 ^ k -> 0 <= t < 2 ^ k ->
             Wf (mkState (2 ^ k) (2 ^ k - 1) b h c1 t c2)).
  { intros b h t c1 c2 Hb Hh' Ht'. split; [exists k; simpl; auto |].
    unfold sound, allocated_length; simpl. auto. }
  destruct (read_in_bounds buf hd) as [x Hx]; [lia |].
  destruct o as [v | | |]; unfold step.
  - unfold try_push, push_commit, allocated_length; simpl.
    destruct (Z.leb_spec 0 tl); [| lia].
    destruct (Z.ltb_spec tl (Z.of_nat (length buf))); [| lia]. simpl.
    repeat match goal with
           | |- context [if ?b then _ else _] => destruct b
           end; eexists _, _; (split; [reflexivity |]);
      apply Hshape; simpl; rewrite ?length_insert; auto.
  - unfold front, slot; simpl.
    repeat match goal with
           | |- context [if ?b then _ else _] => destruct b
           end; simpl; rewrite ?Hx; eexists _, _; (split; [reflexivity |]);
      apply Hshape; auto.
  - eexists _, _. split; [reflexivity |]. apply Hshape; auto.
  - unfold try_pop, pop_commit, slot; simpl.
    repeat match goal with
           | |- context [if ?b then _ else _] => destruct b
           end; simpl; rewrite ?Hx; eexists _, _; (split; [reflexivity |]);
      apply Hshape; simpl; rewrite ?length_insert; auto.
Qed.

Lemma run_wf ops :
  forall s, Wf s -> exists tr s', run ops s = Done (tr, s') /\ Wf s'.
Proof.
  induction ops as [| o ops IH]; intros s W.
  - exists [], s. auto.
  - destruct (step_wf o s W) as (e & s1 & Hstep & W1).
    destruct (IH s1 W1) as (tr & s2 & Hrun & W2).
    exists (e :: tr), s2. simpl. rewrite Hstep, Hrun. auto.
Qed.

(** ** Construction: capacity and allocation *)

(** For requested capacities from [2] to [2^63] the constructor allocates
    exactly [buffer_size()] slots, a power of two that is at least [2]. *)
Lemma construct_allocation c :
  2 <= c <= 2 ^ 63 ->
  allocated_length (construct c) = buffer_size (construct c) /\
  buffer_size (construct c) = next_power_of_two_spec c /\
  2 <= buffer_size (construct c).
Proof.
  intros Hc. destruct (construct_wf c Hc) as (_ & Hsound & _).
  split; [exact Hsound |].
  destruct (construct_cases c) as [[? _] | [(_ & Hk & E) | [? _]]]; try lia.
  pose proof (pow2_bounds _ Hk) as Hp.
  unfold buffer_size, next_power_of_two_spec. rewrite E. simpl. lia.
Qed.

(** C1, as amended.  For every requested capacity [c], [capacity()] is at
    least [1]; for [c <= 2^63] it equals
    [max(next_power_of_two(max(c,1)), 2) - 1], the constructor raising a
    buffer of one slot to two; and requesting [5] gives [7]. *)
Theorem capacity_rounding c :
  0 <= c < 2 ^ 64 ->
  1 <= capacity (construct c) /\
  (c <= 2 ^ 63 ->
   capacity (construct c) = Z.max (next_power_of_two_spec (Z.max c 1)) 2 - 1) /\
  capacity (construct 5) = 7.
Proof.
  intros Hc. split; [| split; [| reflexivity]].
  - destruct (construct_cases c Hc) as [[_ ->] | [(_ & Hk & ->) | [_ ->]]].
    + now vm_compute.
    + pose proof (pow2_bounds _ Hk) as Hp.
      unfold capacity. simpl. rewrite wrap_small; lia.
    + now vm_compute.
  - intros Hle.
    destruct (construct_cases c Hc) as [[H1 ->] | [(H2 & Hk & ->) | [? _]]];
      [| | lia].
    + rewrite (Z.max_r c 1) by lia. reflexivity.
    + pose proof (pow2_bounds _ Hk) as Hp.
      rewrite (Z.max_l c 1) by lia. unfold next_power_of_two_spec, capacity.
      simpl. rewrite wrap_small by lia. lia.
Qed.

(** C2.  Requested capacities [0] and [1] get an array of one slot, and a
    requested capacity above [2^63] an array of no slot, while
    [buffer_size()] answers [2]. *)
Theorem construct_small_allocation :
  allocated_length (construct 0) = 1 /\ buffer_size (construct 0) = 2 /\
  allocated_length (construct 1) = 1 /\ buffer_size (construct 1) = 2 /\
  allocated_length (construct (2 ^ 63 + 1)) = 0 /\
  buffer_size (construct (2 ^ 63 + 1)) = 2.
Proof. repeat split; vm_compute; reflexivity. Qed.

(** C3.  On a buffer constructed with requested capacity [1] the second
    push of [try_push(a); front(); pop(); try_push(b)] writes [buffer_[1]]
    in an array of one slot; the three calls before it succeed and the
    [pop()] follows a [front()] that returned the element. *)
Theorem small_buffer_out_of_bounds (a b : T) :
  allocated_length (construct 1) = 1 /\
  (exists s,
     run [Push a; Front; Pop] (construct 1)
     = Done ([ObsPush a true; ObsFront (Some a); ObsPop true], s) /\
     try_push b s = OutOfBounds 1) /\
  run [Push a; Front; Pop; Push b] (construct 1) = OutOfBounds 1.
Proof.
  split; [reflexivity |]. split; [| reflexivity].
  eexists. split; reflexivity.
Qed.

(** ** Occupancy *)

Lemma rep_length_capacity pk s q :
  Rep pk s q -> Z.of_nat (length q) <= capacity s.
Proof.
  intros (k & H & Hc & Tc & R & _).
  rewrite (rep_at_capacity _ _ _ _ _ _ R).
  pose proof (rep_at_length _ _ _ _ _ _ R). lia.
Qed.

(** [size()] is the number of elements of the represented queue. *)
Lemma size_rep pk s q : Rep pk s q -> size s = Z.of_nat (length q).
Proof.
  intros (k & H & Hc & Tc & R & _).
  pose proof R as [Hk Hcap Hmask HHc HTc Hroom Hh Ht Hhc Htc Hsl].
  pose proof (pow2_bounds k Hk) as Hp.
  unfold size, wrap, size_bits. rewrite Hmask, mask_land by lia.
  rewrite Z.mod_mod_divide.
  - rewrite Hh, Ht, <- Zminus_mod.
    replace (H + Z.of_nat (length q) - H) with (Z.of_nat (length q)) by lia.
    apply Z.mod_small. lia.
  - exists (2 ^ (64 - k)). rewrite <- Z.pow_add_r by lia. f_equal. lia.
Qed.

(** [full()] holds exactly when the queue has [capacity()] elements, and
    [empty()] exactly when it has none. *)
Lemma full_rep pk s q :
  Rep pk s q -> full s = true -> Z.of_nat (length q) = capacity s.
Proof.
  intros (k & H & Hc & Tc & R & _) Hfull.
  pose proof R as [Hk Hcap Hmask HHc HTc Hroom Hh Ht Hhc Htc Hsl].
  pose proof (pow2_bounds k Hk) as Hp.
  rewrite (rep_at_capacity _ _ _ _ _ _ R).
  unfold full in Hfull. rewrite Ht, Hmask, next_index, Hh in Hfull by lia.
  apply Z.eqb_eq in Hfull.
  destruct (Z.eq_dec (Z.of_nat (length q) + 1) (2 ^ k)) as [| Hne]; [lia |].
  exfalso. revert Hfull. apply mod_neq_close; lia.
Qed.

Lemma empty_rep pk s q : Rep pk s q -> empty s = true -> q = [].
Proof.
  intros (k & H & Hc & Tc & R & _) Hempty.
  pose proof R as [Hk Hcap Hmask HHc HTc Hroom Hh Ht Hhc Htc Hsl].
  pose proof (pow2_bounds k Hk) as Hp.
  unfold empty in Hempty. apply Z.eqb_eq in Hempty. rewrite Hh, Ht in Hempty.
  destruct q as [| x q]; [reflexivity |].
  exfalso. symmetry in Hempty. revert Hempty.
  apply mod_neq_close; simpl length in *; lia.
Qed.

(** While nothing has been removed the tail index counts the elements. *)
Lemma rep_tail_head0 pk s q :
  Rep pk s q -> head_ s = 0 -> tail_ s = Z.of_nat (length q).
Proof.
  intros (k & H & Hc & Tc & R & _) Hh0.
  pose proof R as [Hk Hcap Hmask HHc HTc Hroom Hh Ht Hhc Htc Hsl].
  pose proof (pow2_bounds k Hk) as Hp.
  rewrite Ht, <- Zplus_mod_idemp_l, <- Hh, Hh0. simpl.
  apply Z.mod_small. lia.
Qed.

(** Reachable states represent the queue of the specification. *)
Lemma run_rep c ops tr s :
  0 <= c < 2 ^ 64 ->
  run ops (construct c) = Done (tr, s) -> disciplined false tr = true ->
  tr = fst (queue_run (capacity (construct c)) ops []) /\
  exists pk, Rep pk s (snd (queue_run (capacity (construct c)) ops [])).
Proof.
  intros Hc Hrun Hd.
  destruct (run_refines ops false (construct c) [] tr s
              (construct_rep c Hc) Hrun Hd) as (Htr & Hrep & _).
  auto.
Qed.

(** ** Filling and draining *)

Lemma fill_rep vs :
  forall pk s q,
    Rep pk s q -> head_ s = 0 ->
    Z.of_nat (length q) + Z.of_nat (length vs) <= capacity s ->
    capacity s <= allocated_length s ->
    exists s',
      run (map Push vs) s = Done (map (fun v => ObsPush v true) vs, s') /\
      Rep pk s' (q ++ vs) /\ capacity_ s' = capacity_ s.
Proof.
  induction vs as [| v vs IH]; intros pk s q R Hh0 Hlen Hal.
  - exists s. rewrite app_nil_r. auto.
  - simpl length in Hlen.
    pose proof (try_push_rep pk s q v R) as Hp.
    destruct (Z.ltb_spec (Z.of_nat (length q)) (capacity s)); [| lia].
    destruct Hp as [Hin _].
    destruct Hin as (s1 & Hrun & R1 & Hh1 & Hcap & Hal1).
    { rewrite (rep_tail_head0 pk s q R Hh0). lia. }
    destruct (IH pk s1 (q ++ [v]) R1) as (s2 & Hrun2 & R2 & Hcap2).
    + congruence.
    + rewrite (capacity_frame _ _ Hcap), length_app. simpl length. lia.
    + rewrite (capacity_frame _ _ Hcap). lia.
    + exists s2. simpl. rewrite Hrun, Hrun2.
      rewrite <- app_assoc in R2. simpl in R2.
      split; [reflexivity |]. split; [exact R2 | congruence].
Qed.

Lemma drain_rep how :
  forall vs pk s,
    Rep pk s vs -> length how = length vs ->
    exists s', run (drain how) s = Done (drain_obs how vs, s') /\
               Rep false s' [].
Proof.
  induction how as [| b how IH]; intros vs pk s R Hlen.
  - destruct vs; [| discriminate]. exists s. split; [reflexivity |].
    now apply Rep_weaken with pk.
  - destruct vs as [| v vs]; [discriminate |].
    injection Hlen as Hlen. destruct b.
    + destruct (try_pop_rep pk s (v :: vs) R) as (s1 & Hrun & R1 & _).
      destruct (IH vs false s1 R1 Hlen) as (s2 & Hrun2 & R2).
      exists s2. split; [| exact R2].
      change (drain (true :: how)) with (TryPop :: drain how).
      simpl. now rewrite Hrun, Hrun2.
    + destruct (front_rep pk s (v :: vs) R) as (s1 & Hf & Hx & R1 & _).
      destruct (pop_rep s1 (v :: vs) R1) as (x & q' & Hq & R2 & He & _).
      injection Hq as <- <-.
      destruct (IH vs false (pop s1) R2 Hlen) as (s2 & Hrun2 & R3).
      exists s2. split; [| exact R3].
      change (drain (false :: how)) with (Front :: Pop :: drain how).
      simpl. now rewrite Hf, Hx, He, Hrun2.
Qed.

(** A [pop()] made without a preceding [front()] leaves the consumer's
    cached tail behind [head_]: the next [try_pop()] then hands out a slot
    that was never pushed, although the [pop()] found the buffer
    non-empty.  This is why [disciplined], not [pops_nonempty], is the
    precondition under which the queue behaves. *)
Lemma pop_without_front (a : T) :
  exists s,
    run [Push a; Pop; TryPop] (construct 5)
    = Done ([ObsPush a true; ObsPop true; ObsTryPop (Some default_T)], s) /\
    pops_nonempty [ObsPush a true; ObsPop true; ObsTryPop (Some default_T)] = true /\
    disciplined false [ObsPush a true; ObsPop true; ObsTryPop (Some default_T)] = false /\
    size s = 7.
Proof. eexists. repeat split; vm_compute; reflexivity. Qed.

(** ** Behaviour of the queue *)

(** C4.  First in, first out.  On a buffer constructed with a requested
    capacity from [2] to [2^63] every sequence of calls runs to the end; and
    whenever a sequence of calls that respects the precondition of [pop()]
    has run to the end, every value the consumer obtained from [front()] or
    [try_pop()] after [n] removals is the [n]-th successfully pushed value
    (counting from [0]), and every call returned what the queue of the
    specification returns. *)
Theorem fifo_order c ops :
  0 <= c < 2 ^ 64 ->
  (2 <= c <= 2 ^ 63 -> exists tr s, run ops (construct c) = Done (tr, s)) /\
  (forall tr s,
     run ops (construct c) = Done (tr, s) -> disciplined false tr = true ->
     Forall (fun nv : nat * T => pushed tr !! fst nv = Some (snd nv))
            (views 0 tr) /\
     tr = fst (queue_run (capacity (construct c)) ops [])).
Proof.
  intros Hc. split.
  - intros Hgood.
    destruct (run_wf ops (construct c) (construct_wf c Hgood)) as (tr & s & Hrun & _).
    eauto.
  - intros tr s Hrun Hd.
    destruct (run_rep c ops tr s Hc Hrun Hd) as [Htr _].
    split; [| exact Htr].
    rewrite Htr in Hd |- *.
    apply (queue_run_fifo (capacity (construct c)) ops [] false []);
      [exact Hd | discriminate].
Qed.

(** X15.  Full and empty boundary for requested capacities up to [2^63].
    On a fresh buffer pushing [capacity()] values succeeds every time, the
    next [try_push] returns [false]; removing the values one by one, each by
    [try_pop()] or by [front()] and [pop()], returns them in push order, and
    then [front()] and [try_pop()] report the buffer empty. *)
Theorem full_empty_boundary c vs w how :
  0 <= c <= 2 ^ 63 ->
  Z.of_nat (length vs) = capacity (construct c) ->
  length how = length vs ->
  exists s1 s2,
    run (map Push vs) (construct c)
    = Done (map (fun v => ObsPush v true) vs, s1) /\
    try_push w s1 = Done (false, s1) /\
    run (drain how) s1 = Done (drain_obs how vs, s2) /\
    front s2 = (None, s2) /\
    try_pop s2 = Done (None, s2).
Proof.
  intros Hc Hlen Hhow.
  assert (Hc' : 0 <= c < 2 ^ 64) by lia.
  pose proof (construct_rep c Hc') as R0.
  destruct (construct_indices c) as (Hh0 & _).
  destruct (construct_shaped c Hc') as (k & Hk & Hcap & Hmask).
  pose proof (pow2_bounds k Hk) as Hp.
  assert (Hcapacity : capacity (construct c) = capacity_ (construct c) - 1).
  { unfold capacity. rewrite Hcap. apply wrap_small. lia. }
  destruct (fill_rep vs false (construct c) [] R0 Hh0) as (s1 & Hfill & R1 & Hcap1).
  { simpl length. lia. }
  { pose proof (construct_allocated c Hc). lia. }
  simpl in R1.
  pose proof (try_push_rep false s1 vs w R1) as Hfull.
  rewrite (capacity_frame _ _ Hcap1), Hlen, Z.ltb_irrefl in Hfull.
  destruct (drain_rep how vs false s1 R1 Hhow) as (s2 & Hdrain & R2).
  exists s1, s2. repeat split; try assumption.
  - exact (front_rep false s2 [] R2).
  - exact (try_pop_rep false s2 [] R2).
Qed.

(** C5.  The full and empty boundary fails on a buffer constructed with a
    requested capacity above [2^63]: [capacity()] is [1], but the array was
    allocated with no slot, so the first of the [capacity()] pushes writes
    [buffer_[0]] outside it instead of succeeding. *)
Theorem full_empty_boundary_overflow c (w : T) :
  2 ^ 63 < c < 2 ^ 64 ->
  capacity (construct c) = 1 /\
  allocated_length (construct c) = 0 /\
  try_push w (construct c) = OutOfBounds 0 /\
  run (map Push [w]) (construct c) = OutOfBounds 0.
Proof.
  intros Hc.
  destruct (construct_cases c) as [[? _] | [([_ ?] & _) | [_ ->]]]; try lia.
  repeat split.
Qed.

(** C6.  [try_pop()] is [front()] followed by [pop()].  In every state: if
    [front()] returns no element so does [try_pop()], with the same state;
    if [front()] returns a pointer, [try_pop()] returns the value it points
    to and leaves what [pop()] leaves after [front()], but for that slot,
    which now holds what the move left.  [front()] returns an element
    whenever [head_] differs from [tail_]; and in every state reached under
    the precondition of [pop()], an empty buffer makes both report empty
    and change nothing. *)
Theorem try_pop_front_pop s :
  match front s with
  | (None, s1) => try_pop s = Done (None, s1)
  | (Some p, s1) =>
      match slot s1 p with
      | Some x =>
          try_pop s =
          Done (Some x,
                set_buffer_ (<[Z.to_nat p := moved_from x]> (buffer_ s1)) (pop s1))
          /\ (forall s2, try_pop s = Done (Some x, s2) ->
                         head_ s2 = head_ (pop s1))
      | None => try_pop s = OutOfBounds p
      end
  end /\
  (empty s = false -> fst (front s) = Some (head_ s)) /\
  (forall c ops tr,
     0 <= c < 2 ^ 64 ->
     run ops (construct c) = Done (tr, s) -> disciplined false tr = true ->
     empty s = true ->
     front s = (None, s) /\ try_pop s = Done (None, s)).
Proof.
  split; [| split].
  - rewrite try_pop_via_front.
    assert (Hp : forall p s1, front s = (Some p, s1) -> p = head_ s1).
    { intros p s1. unfold front.
      repeat match goal with
             | |- context [if ?b then _ else _] => destruct b
             end; intros Hf; try discriminate;
        injection Hf as <- <-; reflexivity. }
    destruct (front s) as [[p |] s1]; [| reflexivity].
    specialize (Hp p s1 eq_refl).
    unfold pop_commit. destruct (slot s1 p) as [x |]; [| reflexivity].
    assert (E : Done (Some x,
                 set_head_ (Z.land (wrap (p + 1)) (index_mask_ s1))
                   (set_buffer_ (<[Z.to_nat p:=moved_from x]> (buffer_ s1)) s1))
                = Done (Some x,
                 set_buffer_ (<[Z.to_nat p:=moved_from x]> (buffer_ s1)) (pop s1))).
    { subst p. destruct s1; reflexivity. }
    split; [exact E |].
    intros s2 Hs2. rewrite E in Hs2. injection Hs2 as <-. reflexivity.
  - unfold empty, front. intros Hne.
    destruct (head_ s =? tail_cache_ s); [| reflexivity].
    destruct s as [cap mask buf hd tc tl hc]; simpl in *.
    now rewrite Hne.
  - intros c ops tr Hc Hrun Hd Hempty.
    destruct (run_rep c ops tr s Hc Hrun Hd) as [_ [pk R]].
    pose proof (empty_rep pk s _ R Hempty) as Hq. rewrite Hq in R.
    split; [exact (front_rep pk s [] R) | exact (try_pop_rep pk s [] R)].
Qed.

(** C7.  Size bound.  In every state reached from construction by calls
    that all returned (whether [pop()] found the buffer non-empty or not),
    [size()] is [(tail_ - head_) & index_mask_] and lies between [0] and
    [capacity()]; when the precondition of [pop()] was respected it is the
    number of elements in the queue. *)
Theorem size_bound c ops tr s :
  0 <= c < 2 ^ 64 ->
  run ops (construct c) = Done (tr, s) ->
  size s = Z.land (wrap (tail_ s - head_ s)) (index_mask_ s) /\
  0 <= size s <= capacity s /\
  capacity s = capacity (construct c) /\
  (disciplined false tr = true ->
   size s = Z.of_nat (length (snd (queue_run (capacity (construct c)) ops [])))).
Proof.
  intros Hc Hrun. split; [reflexivity |].
  destruct (run_frame ops _ _ _ Hrun) as (Hcap & Hmask & _).
  destruct (construct_shaped c Hc) as (k & Hk & Hcap0 & Hmask0).
  pose proof (pow2_bounds k Hk) as Hp.
  split; [| split].
  - unfold size, capacity. rewrite Hmask, Hmask0, Hcap, Hcap0.
    pose proof (masked_range k (wrap (tail_ s - head_ s)) Hk).
    rewrite (wrap_small (2 ^ k - 1)) by lia. lia.
  - now apply capacity_frame.
  - intros Hd. destruct (run_rep c ops tr s Hc Hrun Hd) as [_ [pk R]].
    exact (size_rep pk s _ R).
Qed.

(** C8.  A [try_push] that returns [false] leaves every field as it was;
    it returns [false] when the slot after [tail_] is both the cached and
    the real head; and in every state reached under the precondition of
    [pop()] it returns [false] whenever the buffer is full. *)
Theorem try_push_full_no_effect v s :
  (forall s', try_push v s = Done (false, s') -> s' = s) /\
  (Z.land (wrap (tail_ s + 1)) (index_mask_ s) = head_cache_ s ->
   Z.land (wrap (tail_ s + 1)) (index_mask_ s) = head_ s ->
   try_push v s = Done (false, s)) /\
  (forall c ops tr,
     0 <= c < 2 ^ 64 ->
     run ops (construct c) = Done (tr, s) -> disciplined false tr = true ->
     full s = true ->
     try_push v s = Done (false, s)).
Proof.
  split; [| split].
  - intros s'. unfold try_push, push_commit.
    destruct (Z.eqb_spec (Z.land (wrap (tail_ s + 1)) (index_mask_ s))
                         (head_cache_ s)) as [E1 | N1].
    + destruct (Z.eqb_spec (Z.land (wrap (tail_ s + 1)) (index_mask_ s))
                           (head_cache_ (set_head_cache_ (head_ s) s)))
        as [E2 | N2].
      * intros Heq. injection Heq as <-.
        destruct s as [cap mask buf hd tc tl hc]; unfold set_head_cache_;
          simpl in *. f_equal. congruence.
      * destruct (_ && _); discriminate.
    + destruct (_ && _); discriminate.
  - intros E1 E2. unfold try_push. rewrite E1, Z.eqb_refl.
    destruct s as [cap mask buf hd tc tl hc]; unfold set_head_cache_;
      simpl in *.
    rewrite <- E1, E2, Z.eqb_refl. reflexivity.
  - intros c ops tr Hc Hrun Hd Hfull.
    destruct (run_rep c ops tr s Hc Hrun Hd) as [_ [pk R]].
    pose proof (try_push_rep pk s _ v R) as Hp.
    rewrite (full_rep pk s _ R Hfull), Z.ltb_irrefl in Hp. exact Hp.
Qed.

(** C9.  [front()] is a peek: it changes none of [head_], [tail_], the
    slots, [capacity_], [index_mask_] and [head_cache_]; when [head_]
    differs from [tail_] it returns the pointer to [buffer_[head_]], and
    calling it again returns the same pointer and changes nothing. *)
Theorem front_peek s :
  head_ (snd (front s)) = head_ s /\
  tail_ (snd (front s)) = tail_ s /\
  buffer_ (snd (front s)) = buffer_ s /\
  capacity_ (snd (front s)) = capacity_ s /\
  index_mask_ (snd (front s)) = index_mask_ s /\
  head_cache_ (snd (front s)) = head_cache_ s /\
  (empty s = false ->
   fst (front s) = Some (head_ s) /\
   front (snd (front s)) = (Some (head_ s), snd (front s)) /\
   size (snd (front s)) = size s /\
   slot (snd (front s)) (head_ s) = slot s (head_ s)).
Proof.
  destruct s as [cap mask buf hd tc tl hc]. unfold front, empty. simpl.
  destruct (Z.eqb_spec hd tc) as [E1 | N1]; simpl.
  - destruct (Z.eqb_spec hd tl) as [E2 | N2]; simpl.
    + repeat split; discriminate.
    + repeat split. unfold front. simpl.
      destruct (Z.eqb_spec hd tl); [contradiction | reflexivity].
  - repeat split. unfold front. simpl.
    destruct (Z.eqb_spec hd tc); [contradiction | reflexivity].
Qed.

(** * Further properties of the code *)

(** ** [next_power_of_2] *)

Lemma next_power_of_2_range n :
  1 <= n <= 2 ^ 63 -> n <= next_power_of_2 n < 2 * n.
Proof.
  intros Hn. rewrite next_power_of_2_refines by lia.
  unfold next_power_of_two_spec.
  destruct (Z.eq_dec n 1) as [-> | Hne]; [vm_compute; split; congruence |].
  pose proof (Z.log2_up_spec n ltac:(lia)) as [Hlo Hhi].
  split; [exact Hhi |].
  replace (Z.log2_up n) with (Z.succ (Z.pred (Z.log2_up n))) by lia.
  rewrite Z.pow_succ_r; [lia |].
  pose proof (Z.log2_up_pos n ltac:(lia)). lia.
Qed.

(** X1.  For [1 <= n <= 2^63], [next_power_of_2(n)] is a power of two that is
    at least [n], below [2n], and not above any other power of two that is
    at least [n]. *)
Theorem next_power_of_2_least n :
  1 <= n <= 2 ^ 63 ->
  (exists k, 0 <= k <= 63 /\ next_power_of_2 n = 2 ^ k) /\
  n <= next_power_of_2 n < 2 * n /\
  (forall j, 0 <= j -> n <= 2 ^ j -> next_power_of_2 n <= 2 ^ j).
Proof.
  intros Hn. split; [| split; [now apply next_power_of_2_range |]];
    rewrite next_power_of_2_refines by lia; unfold next_power_of_two_spec.
  - exists (Z.log2_up n). split; [| reflexivity].
    split; [apply Z.log2_up_nonneg | apply Z.log2_up_le_pow2; lia].
  - intros j Hj Hle. apply Z.pow_le_mono_r; [lia |].
    apply Z.log2_up_le_pow2; lia.
Qed.

(** X2.  The edges of [next_power_of_2]: [0] is rounded to [1]; a power of
    two up to [2^63] is returned as it is, so rounding twice is rounding
    once; and above [2^63] the result wraps to [0]. *)
Theorem next_power_of_2_edges n :
  0 <= n < 2 ^ 64 ->
  next_power_of_2 0 = 1 /\
  (forall k, 0 <= k <= 63 -> next_power_of_2 (2 ^ k) = 2 ^ k) /\
  (n <= 2 ^ 63 -> next_power_of_2 (next_power_of_2 n) = next_power_of_2 n) /\
  (2 ^ 63 < n -> next_power_of_2 n = 0).
Proof.
  intros Hn.
  assert (Hfix : forall k, 0 <= k <= 63 -> next_power_of_2 (2 ^ k) = 2 ^ k).
  { intros k Hk.
    assert (0 < 2 ^ k <= 2 ^ 63).
    { split; [apply Z.pow_pos_nonneg; lia | apply Z.pow_le_mono_r; lia]. }
    rewrite next_power_of_2_refines by lia.
    unfold next_power_of_two_spec. now rewrite Z.log2_up_pow2 by lia. }
  split; [reflexivity |]. split; [exact Hfix |]. split.
  - intros Hle. rewrite (next_power_of_2_refines n) by lia.
    unfold next_power_of_two_spec. apply Hfix.
    split; [apply Z.log2_up_nonneg |].
    destruct (Z.eq_dec n 0) as [-> | Hne]; [vm_compute; congruence |].
    apply Z.log2_up_le_pow2; lia.
  - intros Hgt. apply next_power_of_2_overflow. lia.
Qed.

(** ** Construction *)

(** X3.  For a requested capacity [c] from [2] to [2^63] the constructor
    allocates exactly [buffer_size()] slots, [buffer_size()] is
    [next_power_of_2(c)], at least [c] and below [2c], and [capacity()] is one
    less: the usable capacity falls short of the request exactly when the
    request is itself a power of two. *)
Theorem construct_sizes c :
  2 <= c <= 2 ^ 63 ->
  allocated_length (construct c) = buffer_size (construct c) /\
  buffer_size (construct c) = next_power_of_2 c /\
  c <= buffer_size (construct c) < 2 * c /\
  capacity (construct c) = buffer_size (construct c) - 1 /\
  (capacity (construct c) < c <-> next_power_of_2 c = c).
Proof.
  intros Hc.
  destruct (construct_allocation c Hc) as (Hal & Hbs & Hge).
  pose proof (next_power_of_2_range c ltac:(lia)) as Hrange.
  rewrite <- next_power_of_2_refines in Hbs by lia.
  assert (Hcap : capacity (construct c) = buffer_size (construct c) - 1).
  { unfold capacity, buffer_size in *. apply wrap_small. lia. }
  split; [exact Hal |]. split; [exact Hbs |].
  split; [rewrite Hbs; exact Hrange |]. split; [exact Hcap |].
  rewrite Hcap, Hbs. lia.
Qed.

(** ** What holds for every client *)

Lemma mod_cases N a :
  0 < N -> - N <= a < N -> a mod N = if 0 <=? a then a else a + N.
Proof.
  intros HN Ha. destruct (Z.leb_spec 0 a).
  - apply Z.mod_small. lia.
  - rewrite <- (Z_mod_plus_full a 1 N), Z.mul_1_l. apply Z.mod_small. lia.
Qed.

Lemma succ_mod N a :
  0 <= a < N -> (a + 1) mod N = if a + 1 =? N then 0 else a + 1.
Proof.
  intros Ha. destruct (Z.eqb_spec (a + 1) N) as [-> | Hne].
  - apply Z_mod_same_full.
  - apply Z.mod_small. lia.
Qed.

(** Each call leaves an index where it was or steps it under the mask. *)
Lemma step_indices o s e s' :
  step o s = Done (e, s') ->
  (head_ s' = head_ s \/
   head_ s' = Z.land (wrap (head_ s + 1)) (index_mask_ s)) /\
  (tail_ s' = tail_ s \/
   tail_ s' = Z.land (wrap (tail_ s + 1)) (index_mask_ s)).
Proof.
  destruct s as [cap mask buf hd tc tl hc].
  destruct o as [v | | |]; unfold step.
  - unfold try_push, push_commit, allocated_length; simpl.
    repeat match goal with
           | |- context [if ?b then _ else _] => destruct b
           end; simpl; intros Heq; try discriminate;
      injection Heq as <- <-; simpl; auto.
  - unfold front, slot, allocated_length; simpl.
    repeat match goal with
           | |- context [if ?b then _ else _] => destruct b
           end; simpl;
      try (destruct (read buf hd)); intros Heq; try discriminate;
      injection Heq as <- <-; simpl; auto.
  - intros Heq. injection Heq as <- <-. simpl. auto.
  - unfold try_pop, pop_commit, slot, allocated_length; simpl.
    repeat match goal with
           | |- context [if ?b then _ else _] => destruct b
           end; simpl;
      try (destruct (read buf hd)); intros Heq; try discriminate;
      injection Heq as <- <-; simpl; auto.
Qed.

Lemma step_ranged o s e s' :
  ranged s -> step o s = Done (e, s') -> ranged s'.
Proof.
  intros ((k & Hk & Hcap & Hmask) & Hh & Ht) Hstep.
  destruct (step_frame o s e s' Hstep) as (Ecap & Emask & _).
  destruct (step_indices o s e s' Hstep) as (Eh & Et).
  pose proof (masked_range k (wrap (head_ s + 1)) Hk) as Mh.
  pose proof (masked_range k (wrap (tail_ s + 1)) Hk) as Mt.
  rewrite <- Hmask in Mh, Mt.
  split; [exists k; rewrite Ecap, Emask; auto |].
  rewrite Ecap, Hcap in *.
  split; [destruct Eh as [-> | ->] | destruct Et as [-> | ->]]; assumption.
Qed.

Lemma run_ranged c ops :
  0 <= c < 2 ^ 64 ->
  forall tr s, run ops (construct c) = Done (tr, s) -> ranged s.
Proof.
  intros Hc.
  assert (H0 : ranged (construct c)).
  { pose proof (construct_shaped c Hc) as Hs.
    destruct (construct_indices c) as (Hh & Ht & _).
    destruct Hs as (k & Hk & Hcap & Hmask).
    pose proof (pow2_bounds k Hk).
    split; [exists k; auto |]. rewrite Hh, Ht, Hcap. lia. }
  revert H0. generalize (construct c). induction ops as [| o ops IH];
    intros s0 H0 tr s Hrun.
  - simpl in Hrun. injection Hrun as <- <-. exact H0.
  - apply run_cons_Done in Hrun as (e & s1 & tr1 & Hstep & Hrun & ->).
    eapply IH; [| exact Hrun]. eapply step_ranged; eassumption.
Qed.

(** Closed forms of the diagnostics when the indices are below [capacity_]. *)
Lemma ranged_forms s :
  ranged s ->
  2 <= capacity_ s /\
  capacity s = capacity_ s - 1 /\
  size s = (if head_ s <=? tail_ s then tail_ s - head_ s
            else tail_ s - head_ s + capacity_ s) /\
  Z.land (wrap (tail_ s + 1)) (index_mask_ s)
  = (if tail_ s + 1 =? capacity_ s then 0 else tail_ s + 1) /\
  Z.land (wrap (head_ s + 1)) (index_mask_ s)
  = (if head_ s + 1 =? capacity_ s then 0 else head_ s + 1).
Proof.
  intros ((k & Hk & Hcap & Hmask) & Hh & Ht).
  pose proof (pow2_bounds k Hk) as Hp. rewrite Hcap in *.
  split; [lia |]. split; [unfold capacity; rewrite Hcap; apply wrap_small; lia |].
  split; [| split].
  - unfold size, wrap, size_bits. rewrite Hmask, mask_land by lia.
    rewrite Z.mod_mod_divide.
    + rewrite mod_cases by lia.
      destruct (Z.leb_spec 0 (tail_ s - head_ s));
        destruct (Z.leb_spec (head_ s) (tail_ s)); lia.
    + exists (2 ^ (64 - k)). rewrite <- Z.pow_add_r by lia. f_equal. lia.
  - rewrite wrap_small, Hmask, mask_land by lia. apply succ_mod. lia.
  - rewrite wrap_small, Hmask, mask_land by lia. apply succ_mod. lia.
Qed.

(** X4.  With a requested capacity from [2] to [2^63] no sequence of calls,
    whether it respects the precondition of [pop()] or not, runs into an
    access outside the array: every call returns, the array keeps
    [buffer_size()] slots and both indices stay below [buffer_size()]. *)
Theorem any_client_in_bounds c ops :
  2 <= c <= 2 ^ 63 ->
  exists tr s,
    run ops (construct c) = Done (tr, s) /\
    allocated_length s = buffer_size s /\
    0 <= head_ s < buffer_size s /\
    0 <= tail_ s < buffer_size s.
Proof.
  intros Hc.
  destruct (run_wf ops (construct c) (construct_wf c Hc))
    as (tr & s & Hrun & _ & Hsound & Hh & Ht).
  exists tr, s. auto.
Qed.

(** X5.  The diagnostics agree with one another in every state a client can
    reach: [empty()] holds exactly when [size()] is [0], [full()] exactly
    when [size()] is [capacity()], and never both. *)
Theorem diagnostics_consistent c ops tr s :
  0 <= c < 2 ^ 64 ->
  run ops (construct c) = Done (tr, s) ->
  (empty s = true <-> size s = 0) /\
  (full s = true <-> size s = capacity s) /\
  (empty s = true -> full s = false).
Proof.
  intros Hc Hrun. pose proof (run_ranged c ops Hc tr s Hrun) as Hr.
  destruct (ranged_forms s Hr) as (Hcap & Ecap & Esize & Etail & _).
  destruct Hr as (_ & Hh & Ht).
  unfold empty, full. rewrite Etail, Ecap, Esize.
  destruct (Z.leb_spec (head_ s) (tail_ s));
    destruct (Z.eqb_spec (tail_ s + 1) (capacity_ s));
    destruct (Z.eqb_spec (head_ s) (tail_ s));
    repeat split; intros; try lia; try discriminate;
    try (apply Z.eqb_eq; lia);
    try (apply Z.eqb_neq; lia);
    try (match goal with H : (_ =? _) = true |- _ => apply Z.eqb_eq in H end; lia).
Qed.

(** X6.  [pop()] takes one off [size()] when the buffer is not empty; called
    on an empty buffer it makes [size()] jump to [capacity()] and [full()]
    hold. *)
Theorem pop_size c ops tr s :
  0 <= c < 2 ^ 64 ->
  run ops (construct c) = Done (tr, s) ->
  (empty s = false -> size (pop s) = size s - 1) /\
  (empty s = true -> size (pop s) = capacity s /\ full (pop s) = true).
Proof.
  intros Hc Hrun. pose proof (run_ranged c ops Hc tr s Hrun) as Hr.
  assert (Hr' : ranged (pop s)).
  { apply (step_ranged Pop s (ObsPop (negb (empty s))) (pop s) Hr). reflexivity. }
  destruct (ranged_forms s Hr) as (Hcap & Ecap & Esize & _ & Ehead).
  destruct (ranged_forms (pop s) Hr') as (_ & _ & Esize' & Etail' & _).
  destruct Hr as (_ & Hh & Ht).
  unfold full. rewrite Etail', Esize', Esize, Ecap.
  unfold pop at 1 2 3 4 5 6. destruct s as [cap mask buf hd tc tl hc].
  unfold empty, set_head_ in *. simpl in *. rewrite Ehead.
  destruct (Z.eqb_spec hd tl); destruct (Z.eqb_spec (hd + 1) cap);
    destruct (Z.eqb_spec (tl + 1) cap);
    split; intros; try discriminate;
    repeat match goal with
           | |- context [?a <=? ?b] => destruct (Z.leb_spec a b)
           end; try split; try lia; try (apply Z.eqb_eq; lia).
Qed.

(** ** What holds under the precondition of [pop()] *)

Lemma full_rep_conv pk s q :
  Rep pk s q -> Z.of_nat (length q) = capacity s -> full s = true.
Proof.
  intros (k & H & Hc & Tc & R & _) Hlen.
  pose proof R as [Hk Hcap Hmask HHc HTc Hroom Hh Ht Hhc Htc Hsl].
  pose proof (pow2_bounds k Hk) as Hp.
  rewrite (rep_at_capacity _ _ _ _ _ _ R) in Hlen.
  unfold full. rewrite Ht, Hmask, next_index, Hh by lia.
  apply Z.eqb_eq.
  replace (H + Z.of_nat (length q) + 1) with (H + 1 * 2 ^ k) by lia.
  apply Z_mod_plus_full.
Qed.

Lemma empty_rep_conv pk s : Rep pk s [] -> empty s = true.
Proof.
  intros (k & H & Hc & Tc & R & _).
  pose proof R as [Hk Hcap Hmask HHc HTc Hroom Hh Ht Hhc Htc Hsl].
  unfold empty. apply Z.eqb_eq. rewrite Hh, Ht. simpl. f_equal. lia.
Qed.

Lemma rep_front_slot pk s x q :
  Rep pk s (x :: q) -> slot s (head_ s) = Some x.
Proof.
  intros (k & H & Hc & Tc & R & _).
  rewrite (rep_head _ _ _ _ _ _ R).
  replace H with (H + Z.of_nat 0) at 1 by (simpl; lia).
  now apply (rep_slots _ _ _ _ _ _ R).
Qed.

Lemma rep_tail_sound pk s q :
  Rep pk s q -> sound s -> 0 <= tail_ s < allocated_length s.
Proof.
  intros (k & H & Hc & Tc & R & _) Hs.
  pose proof (pow2_bounds k (rep_k _ _ _ _ _ _ R)).
  rewrite Hs, (rep_capacity _ _ _ _ _ _ R), (rep_tail _ _ _ _ _ _ R).
  apply Z.mod_pos_bound. lia.
Qed.

(** States reached from a buffer of requested capacity [2] to [2^63] have an
    array of [capacity_] slots. *)
Lemma run_sound c ops tr s :
  2 <= c <= 2 ^ 63 -> run ops (construct c) = Done (tr, s) -> sound s.
Proof.
  intros Hc Hrun. destruct (construct_wf c Hc) as (_ & Hs & _).
  destruct (run_frame ops _ _ _ Hrun) as (Hcap & _ & Hal).
  unfold sound in *. congruence.
Qed.

Lemma read_insert_other (b : list T) i j v :
  0 <= i -> i <> j -> read (<[Z.to_nat i := v]> b) j = read b j.
Proof.
  intros Hi Hne. destruct (Z_lt_ge_dec j 0) as [Hj | Hj].
  - unfold read. destruct (Z.leb_spec 0 j); [lia | reflexivity].
  - apply read_insert_ne; lia.
Qed.

(** A successful [try_push] has put the item in slot [tail_] and touched no
    other slot. *)
Lemma try_push_stores v s b s' :
  try_push v s = Done (b, s') ->
  (b = true -> slot s' (tail_ s) = Some v) /\
  (forall i, i <> tail_ s -> slot s' i = slot s i) /\
  head_ s' = head_ s /\ tail_cache_ s' = tail_cache_ s.
Proof.
  destruct s as [cap mask buf hd tc tl hc].
  unfold try_push, push_commit, allocated_length, slot; simpl.
  destruct (Z.leb_spec 0 tl); destruct (Z.ltb_spec tl (Z.of_nat (length buf)));
    simpl;
    repeat match goal with
           | |- context [if ?c then _ else _] => destruct c
           end; intros Heq; try discriminate; injection Heq as <- <-; simpl;
    repeat split; try discriminate; intros;
    try (apply read_insert_eq; lia); try (apply read_insert_other; lia).
Qed.

(** [try_pop] touches no slot but [head_], nor the producer's fields. *)
Lemma try_pop_frame s r s' :
  try_pop s = Done (r, s') ->
  (forall i, i <> head_ s -> slot s' i = slot s i) /\
  tail_ s' = tail_ s /\ head_cache_ s' = head_cache_ s.
Proof.
  destruct s as [cap mask buf hd tc tl hc].
  unfold try_pop, pop_commit, slot; simpl.
  destruct (read buf hd) as [x |] eqn:Hx;
    repeat match goal with
           | |- context [if ?c then _ else _] => destruct c
           end; intros Heq; try discriminate; injection Heq as <- <-; simpl;
    repeat split; intros; try reflexivity.
  all: apply read_insert_other;
    [apply read_Some_bounds in Hx; lia | congruence].
Qed.

(** X7.  In a state reached under the precondition of [pop()] (requested
    capacity [2] to [2^63]) [try_push] returns [true] exactly when [full()]
    is false, whatever the cached head holds; [size()] then grows by one, the
    item is in slot [tail_] and the buffer is not empty. *)
Theorem try_push_iff_not_full c ops tr s v :
  2 <= c <= 2 ^ 63 ->
  run ops (construct c) = Done (tr, s) -> disciplined false tr = true ->
  exists s',
    try_push v s = Done (negb (full s), s') /\
    size s' = size s + (if full s then 0 else 1) /\
    (full s = false -> slot s' (tail_ s) = Some v /\ empty s' = false).
Proof.
  intros Hc Hrun Hd.
  destruct (run_rep c ops tr s ltac:(lia) Hrun Hd) as [_ [pk R]].
  set (q := snd (queue_run (capacity (construct c)) ops [])) in *.
  pose proof (rep_length_capacity pk s q R) as Hle.
  pose proof (try_push_rep pk s q v R) as Hp.
  destruct (Z.ltb_spec (Z.of_nat (length q)) (capacity s)) as [Hlt | Hge].
  - assert (Hnf : full s = false).
    { destruct (full s) eqn:Hf; [| reflexivity].
      apply (full_rep pk s q R) in Hf. lia. }
    destruct Hp as [Hin _].
    destruct Hin as (s' & Hpush & R' & _ & _ & _).
    { apply (rep_tail_sound pk s q R). eapply run_sound; eassumption. }
    exists s'. rewrite Hnf. split; [exact Hpush |].
    split; [rewrite (size_rep pk s' _ R'), (size_rep pk s q R), length_app;
            simpl; lia |].
    intros _. split; [now apply (try_push_stores v s true s' Hpush) |].
    destruct (empty s') eqn:He; [| reflexivity].
    apply (empty_rep pk s' _ R') in He. now destruct q.
  - assert (Hf : full s = true) by (apply (full_rep_conv pk s q R); lia).
    exists s. rewrite Hf. split; [exact Hp |]. split; [lia | discriminate].
Qed.

(** X8.  In a state reached under the precondition of [pop()], [front()] and
    [try_pop()] return an element exactly when [empty()] is false, whatever
    the cached tail holds; the element is the one in slot [head_], and
    [try_pop()] then takes one off [size()] and leaves the buffer not full. *)
Theorem try_pop_iff_not_empty c ops tr s :
  0 <= c < 2 ^ 64 ->
  run ops (construct c) = Done (tr, s) -> disciplined false tr = true ->
  exists s',
    try_pop s = Done (if empty s then None else slot s (head_ s), s') /\
    fst (front s) = (if empty s then None else Some (head_ s)) /\
    size s' = size s - (if empty s then 0 else 1) /\
    (empty s = false -> is_Some (slot s (head_ s)) /\ full s' = false).
Proof.
  intros Hc Hrun Hd.
  destruct (run_rep c ops tr s Hc Hrun Hd) as [_ [pk R]].
  set (q := snd (queue_run (capacity (construct c)) ops [])) in *.
  pose proof (try_pop_rep pk s q R) as Hp.
  pose proof (front_rep pk s q R) as Hf.
  destruct q as [| x q].
  - rewrite (empty_rep_conv pk s R). exists s.
    split; [exact Hp |]. split; [now rewrite Hf |].
    split; [lia | discriminate].
  - assert (Hne : empty s = false).
    { destruct (empty s) eqn:He; [| reflexivity].
      apply (empty_rep pk s _ R) in He. discriminate. }
    rewrite Hne, (rep_front_slot pk s x q R).
    destruct Hp as (s' & Hpop & R' & Hcap & _).
    destruct Hf as (s1 & Hfront & _).
    exists s'. split; [exact Hpop |]. split; [now rewrite Hfront |].
    split; [rewrite (size_rep false s' q R'), (size_rep pk s _ R);
            simpl length; lia |].
    intros _. split; [eauto |].
    destruct (full s') eqn:Hfull; [| reflexivity].
    apply (full_rep false s' q R') in Hfull.
    pose proof (rep_length_capacity pk s _ R) as Hle.
    rewrite (capacity_frame _ _ Hcap) in Hfull. simpl length in Hle. lia.
Qed.

(** Every successful push adds one element to the queue of the
    specification and every removal takes one off. *)
Lemma queue_run_count limit ops :
  forall q pk,
    disciplined pk (fst (queue_run limit ops q)) = true ->
    (pk = true -> q <> []) ->
    (length (snd (queue_run limit ops q))
     + removed (fst (queue_run limit ops q))
     = length q + length (pushed (fst (queue_run limit ops q))))%nat.
Proof.
  induction ops as [| o ops IH]; intros q pk Hd Hpk; [simpl; lia |].
  simpl in *. destruct o as [v | | |]; simpl in *.
  - destruct (Z.of_nat (length q) <? limit).
    + specialize (IH (q ++ [v]) pk).
      destruct (queue_run limit ops (q ++ [v])) as [tr q2]. simpl in *.
      rewrite length_app in IH. simpl in IH.
      rewrite IH; [lia | exact Hd | intros _; now destruct q].
    + specialize (IH q pk).
      destruct (queue_run limit ops q) as [tr q2]. simpl in *. auto.
  - destruct q as [| x q]; simpl in *.
    + specialize (IH [] false).
      destruct (queue_run limit ops []) as [tr q2]. simpl in *.
      apply IH; [exact Hd | discriminate].
    + specialize (IH (x :: q) true).
      destruct (queue_run limit ops (x :: q)) as [tr q2]. simpl in *.
      apply IH; [exact Hd | discriminate].
  - destruct q as [| x q].
    + simpl in Hd.
      destruct (queue_run limit ops []) as [tr q2]. simpl in *.
      apply andb_true_iff in Hd as [-> _]. now specialize (Hpk eq_refl).
    + specialize (IH q false).
      simpl in *. destruct (queue_run limit ops q) as [tr q2]. simpl in *.
      apply andb_true_iff in Hd as [_ Hd].
      rewrite <- IH; [lia | exact Hd | discriminate].
  - destruct q as [| x q]; simpl in *.
    + specialize (IH [] false).
      destruct (queue_run limit ops []) as [tr q2]. simpl in *.
      apply IH; [exact Hd | discriminate].
    + specialize (IH q false).
      destruct (queue_run limit ops q) as [tr q2]. simpl in *.
      rewrite <- IH; [lia | exact Hd | discriminate].
Qed.

(** X9.  After any sequence of calls that respects the precondition of
    [pop()], [size()] is the number of successful pushes minus the number of
    removals ([pop()] calls and [try_pop()] calls that returned an
    element). *)
Theorem size_counts c ops tr s :
  0 <= c < 2 ^ 64 ->
  run ops (construct c) = Done (tr, s) -> disciplined false tr = true ->
  size s = Z.of_nat (length (pushed tr)) - Z.of_nat (removed tr) /\
  (removed tr <= length (pushed tr))%nat.
Proof.
  intros Hc Hrun Hd.
  destruct (run_rep c ops tr s Hc Hrun Hd) as [Htr [pk R]].
  rewrite (size_rep pk s _ R).
  pose proof (queue_run_count (capacity (construct c)) ops [] false) as Hcount.
  rewrite <- Htr in Hcount. simpl in Hcount.
  specialize (Hcount Hd ltac:(discriminate)). lia.
Qed.

(** X10.  Each index has one writer.  [try_push] never changes [head_] or
    [tail_cache_] and writes no slot but [buffer_[tail_]]; [try_pop] never
    changes [tail_] or [head_cache_] and writes no slot but
    [buffer_[head_]]; [pop()] changes [head_] only. *)
Theorem single_writer v s :
  (forall b s', try_push v s = Done (b, s') ->
     head_ s' = head_ s /\ tail_cache_ s' = tail_cache_ s /\
     forall i, i <> tail_ s -> slot s' i = slot s i) /\
  (forall r s', try_pop s = Done (r, s') ->
     tail_ s' = tail_ s /\ head_cache_ s' = head_cache_ s /\
     forall i, i <> head_ s -> slot s' i = slot s i) /\
  (tail_ (pop s) = tail_ s /\ head_cache_ (pop s) = head_cache_ s /\
   tail_cache_ (pop s) = tail_cache_ s /\ buffer_ (pop s) = buffer_ s).
Proof.
  split; [| split].
  - intros b s' Hpush.
    destruct (try_push_stores v s b s' Hpush) as (_ & Hsl & Hh & Htc). auto.
  - intros r s' Hpop.
    destruct (try_pop_frame s r s' Hpop) as (Hsl & Ht & Hhc). auto.
  - destruct s; repeat split.
Qed.

(** ** Reuse of the slots *)

Lemma ping_pong_rep vs :
  forall pk s,
    Rep pk s [] -> sound s ->
    exists s', run (ping_pong vs) s = Done (ping_pong_obs vs, s') /\
               Rep false s' [] /\ sound s'.
Proof.
  induction vs as [| v vs IH]; intros pk s R Hs.
  - exists s. split; [reflexivity |]. split; [now apply Rep_weaken with pk | exact Hs].
  - pose proof (try_push_rep pk s [] v R) as Hp.
    pose proof (rep_tail_sound pk s [] R Hs) as Ht.
    assert (Hcap : 0 < capacity s).
    { destruct R as (k & H & Hc & Tc & R & _).
      pose proof (pow2_bounds k (rep_k _ _ _ _ _ _ R)).
      rewrite (rep_at_capacity _ _ _ _ _ _ R). lia. }
    simpl length in Hp.
    destruct (Z.ltb_spec (Z.of_nat 0) (capacity s)) as [_ | Hge]; [| simpl in Hge; lia].
    destruct Hp as [Hin _].
    destruct (Hin ltac:(lia)) as (s1 & Hpush & R1 & _ & Hcap1 & Hal1).
    simpl in R1.
    destruct (try_pop_rep pk s1 [v] R1) as (s2 & Hpop & R2 & Hcap2 & Hal2).
    assert (Hs2 : sound s2) by (unfold sound in *; congruence).
    destruct (IH false s2 R2 Hs2) as (s3 & Hrun & R3 & Hs3).
    exists s3. split; [| auto].
    change (ping_pong (v :: vs)) with (Push v :: TryPop :: ping_pong vs).
    change (ping_pong_obs (v :: vs))
      with (ObsPush v true :: ObsTryPop (Some v) :: ping_pong_obs vs).
    simpl. now rewrite Hpush, Hpop, Hrun.
Qed.

(** X11.  The slots are reused without end: from any empty state reached
    under the precondition of [pop()] (requested capacity [2] to [2^63]),
    pushing a value and popping it again works for a list of values of any
    length, each [try_pop()] returning the value just pushed, and leaves the
    buffer empty. *)
Theorem ping_pong_forever c ops tr s vs :
  2 <= c <= 2 ^ 63 ->
  run ops (construct c) = Done (tr, s) -> disciplined false tr = true ->
  empty s = true ->
  exists s', run (ping_pong vs) s = Done (ping_pong_obs vs, s') /\
             empty s' = true.
Proof.
  intros Hc Hrun Hd He.
  destruct (run_rep c ops tr s ltac:(lia) Hrun Hd) as [_ [pk R]].
  rewrite (empty_rep pk s _ R He) in R.
  destruct (ping_pong_rep vs pk s R (run_sound c ops tr s Hc Hrun))
    as (s' & Hpp & R' & _).
  exists s'. split; [exact Hpp | exact (empty_rep_conv false s' R')].
Qed.

(** ** Calling [pop()] without [front()] *)

(** X12.  What breaking the precondition of [pop()] does.  From any empty
    state reached under that precondition (requested capacity [2] to
    [2^63]): push one item, call [pop()] without [front()] (the buffer is not
    empty then), and call [try_pop()].  The cached tail is now behind
    [head_], so [try_pop()] does not report empty: it returns whatever the
    slot after the item holds, and [size()] becomes [capacity()]. *)
Theorem pop_without_front_hazard c ops tr s a :
  2 <= c <= 2 ^ 63 ->
  run ops (construct c) = Done (tr, s) -> disciplined false tr = true ->
  empty s = true ->
  exists y s',
    run [Push a; Pop; TryPop] s
    = Done ([ObsPush a true; ObsPop true; ObsTryPop (Some y)], s') /\
    slot s (Z.land (wrap (head_ s + 1)) (index_mask_ s)) = Some y /\
    size s' = capacity s.
Proof.
  intros Hc Hrun Hd He.
  destruct (run_rep c ops tr s ltac:(lia) Hrun Hd) as [_ [pk R]].
  rewrite (empty_rep pk s _ R He) in R.
  pose proof (run_sound c ops tr s Hc Hrun) as Hs.
  pose proof (rep_tail_sound pk s [] R Hs) as Htl.
  destruct R as (k & H & Hc0 & Tc & R & _).
  pose proof (pow2_bounds k (rep_k _ _ _ _ _ _ R)) as Hp.
  pose proof (rep_k _ _ _ _ _ _ R) as Hk.
  pose proof (rep_Tc _ _ _ _ _ _ R) as HTc. simpl in HTc.
  assert (Tc = H) by lia. subst Tc.
  pose proof (rep_head _ _ _ _ _ _ R) as Hh.
  pose proof (rep_tail _ _ _ _ _ _ R) as Ht. simpl in Ht. rewrite Z.add_0_r in Ht.
  pose proof (rep_mask _ _ _ _ _ _ R) as Hmask.
  pose proof (rep_capacity _ _ _ _ _ _ R) as Hcap.
  pose proof (rep_at_capacity _ _ _ _ _ _ R) as Hcapacity.
  destruct (try_push_cases k H Hc0 H s [] a R)
    as [[Hfull _] | (_ & Hc' & s0 & R0 & Hfree & Hbuf & Hpush)];
    [simpl in Hfull; lia |].
  destruct (push_commit_rep k H Hc' H s0 [] a R0 Hfree) as (s1 & Hcommit & R1 & _ & Hal1).
  { simpl. rewrite Z.add_0_r, <- Ht.
    unfold allocated_length in *. rewrite Hbuf. lia. }
  rewrite <- Hpush in Hcommit. simpl in R1.
  pose proof (try_push_stores a s true s1 Hcommit) as (_ & Hother & _).
  pose proof (rep_head _ _ _ _ _ _ R1) as Hh1.
  pose proof (rep_tail _ _ _ _ _ _ R1) as Ht1.
  change (Z.of_nat (length [a])) with 1 in Ht1.
  pose proof (rep_tail_cache _ _ _ _ _ _ R1) as Htc1.
  pose proof (rep_mask _ _ _ _ _ _ R1) as Hmask1.
  assert (Hne : H mod 2 ^ k <> (H + 1) mod 2 ^ k).
  { apply not_eq_sym, mod_neq_close; lia. }
  assert (Hnext : Z.land (wrap (head_ s + 1)) (index_mask_ s) = (H + 1) mod 2 ^ k).
  { rewrite Hh, Hmask. now apply next_index. }
  assert (Hrange : 0 <= (H + 1) mod 2 ^ k < 2 ^ k) by (apply Z.mod_pos_bound; lia).
  destruct (read_in_bounds (buffer_ s) ((H + 1) mod 2 ^ k)) as [y Hy].
  { unfold sound, allocated_length in Hs. rewrite Hs, Hcap. exact Hrange. }
  assert (Hy1 : slot s1 ((H + 1) mod 2 ^ k) = Some y).
  { rewrite Hother; [exact Hy |]. rewrite Ht. congruence. }
  exists y. eexists. split; [| split; [rewrite Hnext; exact Hy |]].
  - simpl. rewrite Hcommit.
    assert (He1 : empty s1 = false).
    { unfold empty. rewrite Hh1, Ht1. now apply Z.eqb_neq. }
    rewrite He1. simpl.
    unfold try_pop.
    assert (Hhp : head_ (pop s1) = (H + 1) mod 2 ^ k).
    { unfold pop. destruct s1; simpl in *. subst. now apply next_index. }
    assert (Htcp : tail_cache_ (pop s1) = H mod 2 ^ k) by (destruct s1; exact Htc1).
    rewrite Hhp, Htcp.
    destruct (Z.eqb_spec ((H + 1) mod 2 ^ k) (H mod 2 ^ k)) as [E |]; [congruence |].
    unfold pop_commit.
    assert (Hyp : slot (pop s1) ((H + 1) mod 2 ^ k) = Some y) by (destruct s1; exact Hy1).
    rewrite Hyp. reflexivity.
  - rewrite Hcapacity. unfold size, wrap, size_bits. simpl.
    change (((H + 1) mod 2 ^ k + 1) mod 2 ^ 64)
      with (wrap ((H + 1) mod 2 ^ k + 1)).
    rewrite Hmask1, Ht1, (next_index k (H + 1)) by lia.
    rewrite mask_land by lia. rewrite Z.mod_mod_divide.
    + rewrite <- Zminus_mod.
      replace (H + 1 - (H + 1 + 1)) with (- 1) by lia.
      rewrite mod_cases by lia. simpl. lia.
    + exists (2 ^ (64 - k)). rewrite <- Z.pow_add_r by lia. f_equal. lia.
Qed.

(** ** Producer calls and consumer calls together *)

(** What a successful [try_push] and a successful [try_pop] write. *)
Lemma try_push_effect v s s' :
  try_push v s = Done (true, s') ->
  head_ s' = head_ s /\
  tail_ s' = Z.land (wrap (tail_ s + 1)) (index_mask_ s) /\
  buffer_ s' = <[Z.to_nat (tail_ s) := v]> (buffer_ s) /\
  index_mask_ s' = index_mask_ s.
Proof.
  destruct s as [cap mask buf hd tc tl hc].
  unfold try_push, push_commit; simpl.
  repeat match goal with
         | |- context [if ?c then _ else _] => destruct c
         end; intros Heq; try discriminate; injection Heq as <-; simpl; auto.
Qed.

Lemma try_pop_effect s x s' :
  try_pop s = Done (Some x, s') ->
  slot s (head_ s) = Some x /\
  head_ s' = Z.land (wrap (head_ s + 1)) (index_mask_ s) /\
  tail_ s' = tail_ s /\
  buffer_ s' = <[Z.to_nat (head_ s) := moved_from x]> (buffer_ s) /\
  index_mask_ s' = index_mask_ s.
Proof.
  destruct s as [cap mask buf hd tc tl hc].
  unfold try_pop, pop_commit, slot; simpl.
  destruct (read buf hd) as [y |];
    repeat match goal with
           | |- context [if ?c then _ else _] => destruct c
           end; intros Heq; try discriminate; injection Heq as <- <-; simpl; auto.
Qed.

(** X13.  A push and a pop commute.  In a state reached under the
    precondition of [pop()] (requested capacity [2] to [2^63]) that is
    neither empty nor full, [try_push(v)] followed by [try_pop()] and
    [try_pop()] followed by [try_push(v)] both succeed, return the same
    element, and leave the same [head_], [tail_] and slots (the two caches
    apart); [size()] is what it was. *)
Theorem push_pop_commute c ops tr s v :
  2 <= c <= 2 ^ 63 ->
  run ops (construct c) = Done (tr, s) -> disciplined false tr = true ->
  empty s = false -> full s = false ->
  exists x sa sb,
    run [Push v; TryPop] s
    = Done ([ObsPush v true; ObsTryPop (Some x)], sa) /\
    run [TryPop; Push v] s
    = Done ([ObsTryPop (Some x); ObsPush v true], sb) /\
    head_ sa = head_ sb /\ tail_ sa = tail_ sb /\ buffer_ sa = buffer_ sb /\
    size sa = size s /\ size sb = size s.
Proof.
  intros Hc Hrun Hd He Hf.
  destruct (run_rep c ops tr s ltac:(lia) Hrun Hd) as [_ [pk R]].
  pose proof (run_sound c ops tr s Hc Hrun) as Hs.
  destruct (run_ranged c ops ltac:(lia) tr s Hrun) as (_ & Hh & Ht).
  set (q := snd (queue_run (capacity (construct c)) ops [])) in *.
  pose proof (rep_length_capacity pk s q R) as Hle.
  assert (Hlt : Z.of_nat (length q) < capacity s).
  { destruct (Z.eq_dec (Z.of_nat (length q)) (capacity s)) as [E |]; [| lia].
    rewrite (full_rep_conv pk s q R E) in Hf. discriminate. }
  destruct q as [| x q].
  { rewrite (empty_rep_conv pk s R) in He. discriminate. }
  (* push, then pop *)
  pose proof (try_push_rep pk s (x :: q) v R) as Hp.
  destruct (Z.ltb_spec (Z.of_nat (length (x :: q))) (capacity s)); [| lia].
  destruct Hp as [Hin _].
  destruct (Hin ltac:(apply (rep_tail_sound pk s _ R Hs)))
    as (s1 & Hpush1 & R1 & _ & _ & _).
  destruct (try_pop_rep pk s1 _ R1) as (sa & Hpop1 & Ra & _ & _).
  (* pop, then push *)
  destruct (try_pop_rep pk s _ R) as (s2 & Hpop2 & R2 & Hcap2 & Hal2).
  assert (Hs2 : sound s2) by (unfold sound in *; congruence).
  pose proof (try_push_rep false s2 q v R2) as Hp2.
  rewrite (capacity_frame _ _ Hcap2) in Hp2. simpl length in *.
  destruct (Z.ltb_spec (Z.of_nat (length q)) (capacity s)); [| lia].
  destruct Hp2 as [Hin2 _].
  destruct (Hin2 ltac:(apply (rep_tail_sound false s2 _ R2 Hs2)))
    as (sb & Hpush2 & Rb & _ & _ & _).
  exists x, sa, sb.
  split; [simpl; now rewrite Hpush1, Hpop1 |].
  split; [simpl; now rewrite Hpop2, Hpush2 |].
  destruct (try_push_effect v s s1 Hpush1) as (Ah & At & Ab & Am).
  destruct (try_pop_effect s1 x sa Hpop1) as (_ & Bh & Bt & Bb & _).
  destruct (try_pop_effect s x s2 Hpop2) as (_ & Ch & Ct & Cb & Cm).
  destruct (try_push_effect v s2 sb Hpush2) as (Dh & Dt & Db & _).
  assert (Hne : head_ s <> tail_ s).
  { unfold empty in He. now apply Z.eqb_neq in He. }
  split; [congruence |]. split; [congruence |].
  split.
  - rewrite Bb, Ab, Db, Cb, Ah, Ct. apply list_insert_insert_ne. lia.
  - rewrite (size_rep false sa _ Ra), (size_rep false sb _ Rb),
      (size_rep pk s _ R), !length_app. simpl length. lia.
Qed.

(** ** A fresh buffer *)

(** X14.  Whatever capacity is requested, a freshly constructed buffer is
    empty: [empty()] holds, [full()] does not, [size()] is [0], and [front()]
    and [try_pop()] return nothing and change nothing. *)
Theorem fresh_buffer_empty c :
  0 <= c < 2 ^ 64 ->
  empty (construct c) = true /\
  full (construct c) = false /\
  size (construct c) = 0 /\
  front (construct c) = (None, construct c) /\
  try_pop (construct c) = Done (None, construct c).
Proof.
  intros Hc. pose proof (construct_rep c Hc) as R.
  split; [exact (empty_rep_conv false _ R) |].
  split.
  - destruct (full (construct c)) eqn:Hf; [| reflexivity].
    apply (full_rep false _ _ R) in Hf.
    destruct R as (k & H & Hc0 & Tc & R & _).
    pose proof (pow2_bounds k (rep_k _ _ _ _ _ _ R)).
    rewrite (rep_at_capacity _ _ _ _ _ _ R) in Hf. simpl in Hf. lia.
  - split; [exact (size_rep false _ _ R) |].
    split; [exact (front_rep false _ _ R) | exact (try_pop_rep false _ _ R)].
Qed.

End RingBuffer.

(** ** Instances at [T := Z], whose move leaves the value in place *)

(** Run the client of the goal and use what it returns. *)
Ltac run_client :=
  lazymatch goal with
  | |- exists tr s, run ?f ?ops ?s0 = Done (tr, s) /\ _ =>
      let r := eval vm_compute in (run f ops s0) in
      lazymatch r with
      | Done (?tr0, ?s1) =>
          pose (trace := tr0); pose (final := s1);
          exists trace, final; split; [vm_compute; reflexivity |]
      end
  | |- exists s, run ?f ?ops ?s0 = Done (_, s) /\ _ =>
      let r := eval vm_compute in (run f ops s0) in
      lazymatch r with
      | Done (_, ?s1) =>
          pose (final := s1); exists final; split; [vm_compute; reflexivity |]
      end
  end.

Ltac by_computation := vm_compute; reflexivity.

Lemma capacity_rounding_witness :
  0 <= 5 < 2 ^ 64 /\
  1 <= capacity (construct 0 5) /\
  (5 <= 2 ^ 63 ->
   capacity (construct 0 5) = Z.max (next_power_of_two_spec (Z.max 5 1)) 2 - 1) /\
  capacity (construct 0 5) = 7.
Proof. split; [lia | apply (capacity_rounding 0 5); lia]. Defined.

(** C1, as stated, fails at requested capacity [1]: [capacity()] is [1] while
    [next_power_of_two(max(1,1)) - 1] is [0], with the rounding of the
    specification and with the rounding of the code alike. *)
Lemma capacity_rounding_counterexample :
  ~ (capacity (construct 0 1) = next_power_of_two_spec (Z.max 1 1) - 1 /\
     1 <= capacity (construct 0 1)) /\
  ~ (capacity (construct 0 1) = next_power_of_2 (Z.max 1 1) - 1 /\
     1 <= capacity (construct 0 1)).
Proof. split; intros [H _]; vm_compute in H; discriminate. Qed.

Lemma fifo_order_witness :
  0 <= 5 < 2 ^ 64 /\
  exists tr s,
    run (fun x => x) [Push 10; Push 20; Front; Pop; Push 30; TryPop; Front; TryPop; TryPop]
        (construct 0 5) = Done (tr, s) /\
    disciplined false tr = true /\
    pushed tr = [10; 20; 30] /\
    views 0 tr = [(0%nat, 10); (1%nat, 20); (2%nat, 30); (2%nat, 30)] /\
    Forall (fun nv : nat * Z => pushed tr !! fst nv = Some (snd nv)) (views 0 tr).
Proof.
  split; [lia |].
  pose proof (fifo_order 0 (fun x => x) 5
                [Push 10; Push 20; Front; Pop; Push 30; TryPop; Front; TryPop; TryPop])
    as Hfifo.
  destruct Hfifo as [_ Hfifo]; [lia |].
  run_client.
  split; [by_computation |]. split; [by_computation |].
  split; [by_computation |].
  apply (Hfifo trace final); by_computation.
Defined.

Lemma full_empty_boundary_witness :
  0 <= 5 <= 2 ^ 63 /\
  Z.of_nat (length [1; 2; 3; 4; 5; 6; 7]) = capacity (construct 0 5) /\
  exists s1 s2,
    run (fun x => x) (map Push [1; 2; 3; 4; 5; 6; 7]) (construct 0 5)
    = Done (map (fun v => ObsPush v true) [1; 2; 3; 4; 5; 6; 7], s1) /\
    try_push 8 s1 = Done (false, s1) /\
    run (fun x => x) (drain [true; false; true; true; false; false; true]) s1
    = Done (drain_obs [true; false; true; true; false; false; true]
                      [1; 2; 3; 4; 5; 6; 7], s2) /\
    front s2 = (None, s2) /\
    try_pop (fun x => x) s2 = Done (None, s2).
Proof.
  split; [lia |]. split; [by_computation |].
  apply (full_empty_boundary 0 (fun x => x) 5 [1; 2; 3; 4; 5; 6; 7] 8
           [true; false; true; true; false; false; true]);
    [lia | by_computation | reflexivity].
Defined.

Lemma try_pop_front_pop_witness :
  (exists s,
     run (fun x => x) [Push 10; Push 20] (construct 0 5)
     = Done ([ObsPush 10 true; ObsPush 20 true], s) /\
     empty s = false /\
     fst (front s) = Some (head_ s) /\
     slot (snd (front s)) (head_ s) = Some 10 /\
     exists s2, try_pop (fun x => x) s = Done (Some 10, s2) /\
                head_ s2 = head_ (pop (snd (front s)))) /\
  (empty (construct 0 5) = true /\
   front (construct 0 5) = (None, construct 0 5) /\
   try_pop (fun x => x) (construct 0 5) = Done (None, construct 0 5)).
Proof.
  split.
  - run_client. split; [by_computation |].
    pose proof (try_pop_front_pop 0 (fun x => x) final) as (Hm & Hne & _).
    split; [apply Hne; by_computation |]. split; [by_computation |].
    vm_compute in Hm. destruct Hm as [Hpop Hhead].
    eexists. split; [exact Hpop | by_computation].
  - split; [by_computation |].
    pose proof (try_pop_front_pop 0 (fun x => x) (construct 0 5)) as (_ & _ & He).
    apply (He 5 [] []); [lia | by_computation | reflexivity | by_computation].
Defined.

Lemma size_bound_witness :
  0 <= 5 < 2 ^ 64 /\
  exists tr s,
    run (fun x => x) [Push 1; Push 2; Push 3; TryPop; Push 4] (construct 0 5)
    = Done (tr, s) /\
    size s = 3 /\ capacity s = 7 /\ 0 <= size s <= capacity s.
Proof.
  split; [lia |]. run_client.
  split; [by_computation |]. split; [by_computation |].
  pose proof (size_bound 0 (fun x => x) 5
                [Push 1; Push 2; Push 3; TryPop; Push 4] trace final) as Hsize.
  destruct Hsize as (_ & Hrange & _); [lia | by_computation | exact Hrange].
Defined.

Lemma try_push_full_no_effect_witness :
  exists s,
    run (fun x => x) [Push 1; Push 2; Push 3] (construct 0 3)
    = Done ([ObsPush 1 true; ObsPush 2 true; ObsPush 3 true], s) /\
    full s = true /\
    try_push 4 s = Done (false, s).
Proof.
  run_client. split; [by_computation |].
  pose proof (try_push_full_no_effect 0 (fun x => x) 4 final) as (_ & _ & Hfull).
  apply (Hfull 3 [Push 1; Push 2; Push 3] [ObsPush 1 true; ObsPush 2 true; ObsPush 3 true]);
    [lia | by_computation | reflexivity | by_computation].
Defined.

Lemma front_peek_witness :
  exists s,
    run (fun x => x) [Push 10; Push 20] (construct 0 5)
    = Done ([ObsPush 10 true; ObsPush 20 true], s) /\
    empty s = false /\
    fst (front s) = Some (head_ s) /\
    slot (snd (front s)) (head_ s) = Some 10 /\
    front (snd (front s)) = (Some (head_ s), snd (front s)) /\
    buffer_ (snd (front s)) = buffer_ s.
Proof.
  run_client. split; [by_computation |].
  pose proof (front_peek final) as (_ & _ & Hbuf & _ & _ & _ & Hne).
  destruct Hne as (Hp & Hagain & _ & _); [by_computation |].
  split; [exact Hp |]. split; [by_computation |].
  split; [exact Hagain | exact Hbuf].
Defined.

(** ** Instances of the further properties *)

Lemma next_power_of_2_least_witness :
  1 <= 5 <= 2 ^ 63 /\
  (exists k, 0 <= k <= 63 /\ next_power_of_2 5 = 2 ^ k) /\
  5 <= next_power_of_2 5 < 2 * 5 /\
  (forall j, 0 <= j -> 5 <= 2 ^ j -> next_power_of_2 5 <= 2 ^ j).
Proof. split; [lia | apply (next_power_of_2_least 5); lia]. Defined.

Lemma next_power_of_2_edges_witness :
  0 <= 2 ^ 63 + 1 < 2 ^ 64 /\
  2 ^ 63 < 2 ^ 63 + 1 /\
  next_power_of_2 (2 ^ 63 + 1) = 0 /\
  next_power_of_2 (2 ^ 10) = 2 ^ 10.
Proof.
  split; [lia |]. split; [lia |].
  destruct (next_power_of_2_edges (2 ^ 63 + 1)) as (_ & Hfix & _ & Hwrap); [lia |].
  split; [apply Hwrap; lia | apply (Hfix 10); lia].
Defined.

Lemma construct_sizes_witness :
  2 <= 8 <= 2 ^ 63 /\
  allocated_length (construct 0 8) = buffer_size (construct 0 8) /\
  buffer_size (construct 0 8) = next_power_of_2 8 /\
  8 <= buffer_size (construct 0 8) < 2 * 8 /\
  capacity (construct 0 8) = buffer_size (construct 0 8) - 1 /\
  (capacity (construct 0 8) < 8 <-> next_power_of_2 8 = 8).
Proof. split; [lia | apply (construct_sizes 0 8); lia]. Defined.

Lemma any_client_in_bounds_witness :
  2 <= 5 <= 2 ^ 63 /\
  exists tr s,
    run (fun x => x) [Pop; Pop; Push 1; TryPop; TryPop; Front; Push 2]
        (construct 0 5) = Done (tr, s) /\
    allocated_length s = buffer_size s /\
    0 <= head_ s < buffer_size s /\
    0 <= tail_ s < buffer_size s.
Proof.
  split; [lia |].
  apply (any_client_in_bounds 0 (fun x => x) 5
           [Pop; Pop; Push 1; TryPop; TryPop; Front; Push 2]); lia.
Defined.

Lemma diagnostics_consistent_witness :
  0 <= 3 < 2 ^ 64 /\
  exists tr s,
    run (fun x => x) [Push 1; Push 2; Push 3] (construct 0 3) = Done (tr, s) /\
    (empty s = true <-> size s = 0) /\
    (full s = true <-> size s = capacity s) /\
    (empty s = true -> full s = false).
Proof.
  split; [lia |]. run_client.
  apply (diagnostics_consistent 0 (fun x => x) 3 [Push 1; Push 2; Push 3]
           trace final); [lia | by_computation].
Defined.

Lemma pop_size_witness :
  0 <= 5 < 2 ^ 64 /\
  exists tr s,
    run (fun x => x) [Push 1; Push 2] (construct 0 5) = Done (tr, s) /\
    empty s = false /\ size (pop s) = size s - 1 /\
    empty (construct 0 5) = true /\
    size (pop (construct 0 5)) = capacity (construct 0 5) /\
    full (pop (construct 0 5)) = true.
Proof.
  split; [lia |]. run_client. split; [by_computation |].
  split.
  - apply (pop_size 0 (fun x => x) 5 [Push 1; Push 2] trace final);
      [lia | by_computation | by_computation].
  - split; [by_computation |].
    apply (pop_size 0 (fun x => x) 5 [] [] (construct 0 5));
      [lia | reflexivity | by_computation].
Defined.

Lemma try_push_iff_not_full_witness :
  2 <= 5 <= 2 ^ 63 /\
  exists tr s,
    run (fun x => x) [Push 1; Push 2; TryPop] (construct 0 5) = Done (tr, s) /\
    disciplined false tr = true /\
    exists s',
      try_push 3 s = Done (negb (full s), s') /\
      size s' = size s + (if full s then 0 else 1) /\
      (full s = false -> slot s' (tail_ s) = Some 3 /\ empty s' = false).
Proof.
  split; [lia |]. run_client. split; [by_computation |].
  apply (try_push_iff_not_full 0 (fun x => x) 5 [Push 1; Push 2; TryPop]
           trace final 3); [lia | by_computation | by_computation].
Defined.

Lemma try_pop_iff_not_empty_witness :
  0 <= 5 < 2 ^ 64 /\
  exists tr s,
    run (fun x => x) [Push 1; Push 2; TryPop] (construct 0 5) = Done (tr, s) /\
    disciplined false tr = true /\
    exists s',
      try_pop (fun x => x) s
      = Done (if empty s then None else slot s (head_ s), s') /\
      fst (front s) = (if empty s then None else Some (head_ s)) /\
      size s' = size s - (if empty s then 0 else 1) /\
      (empty s = false -> is_Some (slot s (head_ s)) /\ full s' = false).
Proof.
  split; [lia |]. run_client. split; [by_computation |].
  apply (try_pop_iff_not_empty 0 (fun x => x) 5 [Push 1; Push 2; TryPop]
           trace final); [lia | by_computation | by_computation].
Defined.

Lemma size_counts_witness :
  0 <= 5 < 2 ^ 64 /\
  exists tr s,
    run (fun x => x) [Push 1; Push 2; Push 3; Front; Pop; TryPop; Push 4]
        (construct 0 5) = Done (tr, s) /\
    disciplined false tr = true /\
    size s = Z.of_nat (length (pushed tr)) - Z.of_nat (removed tr) /\
    (removed tr <= length (pushed tr))%nat.
Proof.
  split; [lia |]. run_client. split; [by_computation |].
  apply (size_counts 0 (fun x => x) 5
           [Push 1; Push 2; Push 3; Front; Pop; TryPop; Push 4] trace final);
    [lia | by_computation | by_computation].
Defined.

Lemma single_writer_witness :
  exists tr s,
    run (fun x => x) [Push 1; Push 2] (construct 0 5) = Done (tr, s) /\
    tail_ (pop s) = tail_ s /\ head_cache_ (pop s) = head_cache_ s /\
    tail_cache_ (pop s) = tail_cache_ s /\ buffer_ (pop s) = buffer_ s.
Proof.
  run_client. apply (single_writer (fun x => x) 0 final).
Defined.

Lemma ping_pong_forever_witness :
  2 <= 2 <= 2 ^ 63 /\
  empty (construct 0 2) = true /\
  exists s',
    run (fun x => x) (ping_pong [1; 2; 3; 4; 5]) (construct 0 2)
    = Done (ping_pong_obs [1; 2; 3; 4; 5], s') /\
    empty s' = true.
Proof.
  split; [lia |]. split; [by_computation |].
  apply (ping_pong_forever 0 (fun x => x) 2 [] [] (construct 0 2) [1; 2; 3; 4; 5]);
    [lia | reflexivity | reflexivity | by_computation].
Defined.

Lemma pop_without_front_hazard_witness :
  2 <= 5 <= 2 ^ 63 /\
  exists y s',
    run (fun x => x) [Push 7; Pop; TryPop] (construct 0 5)
    = Done ([ObsPush 7 true; ObsPop true; ObsTryPop (Some y)], s') /\
    slot (construct 0 5)
         (Z.land (wrap (head_ (construct 0 5) + 1)) (index_mask_ (construct 0 5)))
    = Some y /\
    size s' = capacity (construct 0 5).
Proof.
  split; [lia |].
  apply (pop_without_front_hazard 0 (fun x => x) 5 [] [] (construct 0 5) 7);
    [lia | reflexivity | reflexivity | by_computation].
Defined.

Lemma push_pop_commute_witness :
  2 <= 5 <= 2 ^ 63 /\
  exists tr s,
    run (fun x => x) [Push 1; Push 2] (construct 0 5) = Done (tr, s) /\
    exists x sa sb,
      run (fun x => x) [Push 3; TryPop] s
      = Done ([ObsPush 3 true; ObsTryPop (Some x)], sa) /\
      run (fun x => x) [TryPop; Push 3] s
      = Done ([ObsTryPop (Some x); ObsPush 3 true], sb) /\
      head_ sa = head_ sb /\ tail_ sa = tail_ sb /\ buffer_ sa = buffer_ sb /\
      size sa = size s /\ size sb = size s.
Proof.
  split; [lia |]. run_client.
  apply (push_pop_commute 0 (fun x => x) 5 [Push 1; Push 2] trace final 3);
    [lia | by_computation | by_computation | by_computation | by_computation].
Defined.

Lemma fresh_buffer_empty_witness :
  0 <= 0 < 2 ^ 64 /\
  empty (construct 0 0) = true /\
  full (construct 0 0) = false /\
  size (construct 0 0) = 0 /\
  front (construct 0 0) = (None, construct 0 0) /\
  try_pop (fun x => x) (construct 0 0) = Done (None, construct 0 0).
Proof. split; [lia | apply (fresh_buffer_empty 0 (fun x => x) 0); lia]. Defined.

(** The failing input of C5: requested capacity [2^63 + 1]. *)
Lemma full_empty_boundary_overflow_witness :
  2 ^ 63 < 2 ^ 63 + 1 < 2 ^ 64 /\
  capacity (construct 0 (2 ^ 63 + 1)) = 1 /\
  allocated_length (construct 0 (2 ^ 63 + 1)) = 0 /\
  try_push 7 (construct 0 (2 ^ 63 + 1)) = OutOfBounds 0 /\
  run (fun x => x) (map Push [7]) (construct 0 (2 ^ 63 + 1)) = OutOfBounds 0.
Proof.
  split; [lia | apply (full_empty_boundary_overflow 0 (fun x => x) (2 ^ 63 + 1) 7); lia].
Defined.
